(** * phylotree_parser.py: a shallow embedding and its verified properties

    The development follows the layout of [src/phylotree_parser.py]:

    - [Re]: the fragment of Python's [re] the parser uses (character
      classes, sequencing, ordered alternation, greedy star, the anchors
      [\A] and [\Z]) with a backtracking matcher and its declarative
      semantics;
    - [Pattern]: the patterns of [PhylotreeParser.Pattern], transcribed
      under the [re.X] flag (white space and [#] comments of the pattern
      text dropped);
    - [Py]: the Python values the parser builds (insertion-ordered [dict]s,
      lists of strings) and the exceptions it can raise;
    - the methods of [PhylotreeParser], as state-passing functions that
      return [Ok] or [Raise].

    A Python [str] is a list of characters.  Characters are the code points
    U+0000..U+00FF, held in [ascii]; on this range [\s] and [\d] are exactly
    the sets [is_space] and [is_digit] below. *)

From Stdlib Require Import List Ascii String ZArith Lia Bool Arith.
Import ListNotations.

Set Implicit Arguments.

(* [String] is loaded for literals only; [length] is the one of lists. *)
Abbreviation length := Datatypes.length.

Definition str := list ascii.

(** A string literal of the source. *)
Definition py (s : string) : str := list_ascii_of_string s.

Definition str_eqb (a b : str) : bool :=
  if list_eq_dec ascii_dec a b then true else false.

(** ** Character classes *)

Definition code (c : ascii) : N := N_of_ascii c.

(** [\s] on [str] patterns: the characters for which [str.isspace] holds. *)
Definition is_space (c : ascii) : bool :=
  let n := code c in
  (((9 <=? n) && (n <=? 13)) || ((28 <=? n) && (n <=? 32))
   || (n =? 133) || (n =? 160))%N.

(** [\d]: the decimal digits; below U+0100 these are [0-9]. *)
Definition is_digit (c : ascii) : bool :=
  let n := code c in ((48 <=? n) && (n <=? 57))%N.

Definition chr_eqb (a b : ascii) : bool := Ascii.eqb a b.

Definition one_of (cs : string) (c : ascii) : bool :=
  existsb (chr_eqb c) (py cs).

(** ** The regular-expression engine *)

Module Re.

Inductive regex : Type :=
| Eps
| Bos                       (* \A *)
| Eos                       (* \Z *)
| Cls (p : ascii -> bool)   (* a character class *)
| Seq (r1 r2 : regex)
| Alt (r1 r2 : regex)       (* r1|r2, r1 tried first *)
| Star (r : regex).         (* r*, greedy *)

Definition Chr (c : ascii) : regex := Cls (chr_eqb c).
Definition Opt (r : regex) : regex := Alt r Eps.       (* r? *)
Definition Plus (r : regex) : regex := Seq r (Star r). (* r+ *)

(** A literal string: what [re.escape] produces a pattern for. *)
Fixpoint Lit (s : str) : regex :=
  match s with
  | [] => Eps
  | c :: s' => Seq (Chr c) (Lit s')
  end.

(** ["|".join(rs)] for a non-empty list of alternatives. *)
Fixpoint Alts (r : regex) (rs : list regex) : regex :=
  match rs with
  | [] => r
  | r' :: rs' => Alt r (Alts r' rs')
  end.

Fixpoint Seqs (rs : list regex) : regex :=
  match rs with
  | [] => Eps
  | [r] => r
  | r :: rs' => Seq r (Seqs rs')
  end.

(** The matcher walks the subject like the backtracking engine does: [pre]
    is the text already consumed (most recent character first), [s] the
    text ahead, and [k] the rest of the pattern. *)
Definition cont := str -> str -> bool.

Fixpoint star_loop (body : str -> str -> cont -> bool) (n : nat)
         (pre s : str) (k : cont) : bool :=
  body pre s
       (fun pre' s' =>
          (length s' <? length s)
          && match n with
             | O => false
             | S n' => star_loop body n' pre' s' k
             end)
  || k pre s.

Fixpoint run (r : regex) (pre s : str) (k : cont) : bool :=
  match r with
  | Eps => k pre s
  | Bos => match pre with [] => k pre s | _ => false end
  | Eos => match s with [] => k pre s | _ => false end
  | Cls p => match s with
             | c :: s' => p c && k (c :: pre) s'
             | [] => false
             end
  | Seq r1 r2 => run r1 pre s (fun pre' s' => run r2 pre' s' k)
  | Alt r1 r2 => run r1 pre s k || run r2 pre s k
  | Star r1 => star_loop (run r1) (length s) pre s k
  end.

Fixpoint search_from (r : regex) (pre s : str) : bool :=
  run r pre s (fun _ _ => true)
  || match s with
     | [] => false
     | c :: s' => search_from r (c :: pre) s'
     end.

(** [pattern.search(text)], as a truth value. *)
Definition search (r : regex) (text : str) : bool := search_from r [] text.

(** Declarative semantics: [M r l m a] says that [r] matches [m] when [l]
    stands before it and [a] after it in the subject. *)
Inductive M : regex -> str -> str -> str -> Prop :=
| MEps l a : M Eps l [] a
| MBos a : M Bos [] [] a
| MEos l : M Eos l [] []
| MCls p c l a : p c = true -> M (Cls p) l [c] a
| MSeq r1 r2 l m1 m2 a :
    M r1 l m1 (m2 ++ a) -> M r2 (l ++ m1) m2 a -> M (Seq r1 r2) l (m1 ++ m2) a
| MAltL r1 r2 l m a : M r1 l m a -> M (Alt r1 r2) l m a
| MAltR r1 r2 l m a : M r2 l m a -> M (Alt r1 r2) l m a
| MStar0 r l a : M (Star r) l [] a
| MStarS r l m1 m2 a :
    M r l m1 (m2 ++ a) -> M (Star r) (l ++ m1) m2 a ->
    M (Star r) l (m1 ++ m2) a.

(** Every character a pattern can consume satisfies [P]. *)
Fixpoint over (P : ascii -> bool) (r : regex) : bool :=
  match r with
  | Eps | Bos | Eos => true
  | Cls p =>
      forallb (fun n => let c := ascii_of_nat n in implb (p c) (P c))
              (seq 0 256)
  | Seq r1 r2 | Alt r1 r2 => over P r1 && over P r2
  | Star r1 => over P r1
  end.

(** Every match of the pattern consumes a character that satisfies [Q]. *)
Fixpoint must (Q : ascii -> bool) (r : regex) : bool :=
  match r with
  | Eps | Bos | Eos | Star _ => false
  | Cls p =>
      forallb (fun n => let c := ascii_of_nat n in implb (p c) (Q c))
              (seq 0 256)
  | Seq r1 r2 => must Q r1 || must Q r2
  | Alt r1 r2 => must Q r1 && must Q r2
  end.

(** [\A r \Z]: the pattern has to cover the whole text. *)
Definition fullmatch (r : regex) (text : str) : bool :=
  search (Seqs [ Bos; r; Eos ]) text.

(** The pattern can match the empty string somewhere. *)
Fixpoint nullable (r : regex) : bool :=
  match r with
  | Eps | Bos | Eos | Star _ => true
  | Cls _ => false
  | Seq r1 r2 => nullable r1 && nullable r2
  | Alt r1 r2 => nullable r1 || nullable r2
  end.

End Re.

(** ** [re.split("\s+", text)] and [str.split(' ')] *)

Fixpoint re_split_ws_from (cur : str) (in_ws : bool) (s : str) : list str :=
  match s with
  | [] => [rev cur]
  | c :: s' =>
      if is_space c
      then if in_ws then re_split_ws_from cur true s'
           else rev cur :: re_split_ws_from [] true s'
      else re_split_ws_from (c :: cur) false s'
  end.

Definition re_split_ws (text : str) : list str :=
  re_split_ws_from [] false text.

Fixpoint split_from (sep : ascii) (cur : str) (s : str) : list str :=
  match s with
  | [] => [rev cur]
  | c :: s' =>
      if chr_eqb c sep then rev cur :: split_from sep [] s'
      else split_from sep (c :: cur) s'
  end.

(** [text.split(sep)] for a separator of one character. *)
Definition split (sep : ascii) (text : str) : list str :=
  split_from sep [] text.

(** ** [PhylotreeParser.Pattern] *)

Module Pattern.
Import Re.

(* "[atgcATGC]" *)
Definition ATGC : regex := Cls (one_of "atgcATGC").

Definition digit : regex := Cls is_digit.   (* \d *)
Definition space : regex := Cls is_space.   (* \s *)

(* \(? [atgcATGC] \d+ [atgcATGC] !* \)? *)
Definition REGULAR : regex :=
  Seqs [ Opt (Chr "(");        (* unstable *)
         ATGC;
         Plus digit;
         ATGC;
         Star (Chr "!");       (* reversion *)
         Opt (Chr ")") ].

(* [atgcATGC]? \d+ d             ex: C459d *)
Definition deletion : regex :=
  Seqs [ Opt ATGC; Plus digit; Chr "d" ].

(* \d+ \.[\dX]? [atgcATGC]+ d?   ex: 960.XC *)
Definition insertion : regex :=
  Seqs [ Plus digit; Chr ".";
         Opt (Cls (fun c => is_digit c || chr_eqb c "X"));
         Plus ATGC; Opt (Chr "d") ].

(* \d+\-\d+d                     ex: 59-60d *)
Definition range_deletion : regex :=
  Seqs [ Plus digit; Chr "-"; Plus digit; Chr "d" ].

Definition reserved : regex := Lit (py "reserved").

(* \A \(? (?: ... | ... | ... | reserved ) !* \)? \Z *)
Definition IRREGULAR : regex :=
  Seqs [ Bos;
         Opt (Chr "(");
         Alts deletion [ insertion; range_deletion; reserved ];
         Star (Chr "!");
         Opt (Chr ")");
         Eos ].

Definition EXCEPTIONS_text : string :=
"T65d G71d A249d C299d C309d A337d
          T455d C456d C459d C498d C960d
          A1409d A1656d A2074d A2395d A4317d
          A5752d A5894d C5899d C7471d T15944d
          A16166d C16187d C16193d C16257d T16325d

          59-60d 105-110d 106-111d 290-291d 291-294d 8281-8289d

          573.XC 960.XC 965.XC 5899.XC 8278.XC  5899.XCd!

          44.1C 5899.1C 459.1C 15944.1T
          374.1A 455.1T 2232.1A 16259.1A
          595.1C 1719.1G 3172.1C 191.1A
          2156.1A 55.1T 65.1T 60.1T 42.1G
          12310.1A 291.1A 5752.1A 310.1T
          597.1T 3229.1A 2405.1C 8276.1C
          2484.1C 745.1T 498.1C 16169.1C
          5899.1C 8279.1T 5740.1A 960.1C
          3307.1A 93.1T 456.1T 356.1C
          3158.1T

          44.1C 55.1T 60.1T 65.1T 93.1T
          191.1A 291.1A 310.1T 356.1C 374.1A
          455.1T 456.1T 459.1C 498.1C 595.1C
          597.1T 745.1T 960.1C 1719.1G 2156.1A
          2232.1A 2405.1C 2484.1C 3158.1T 3172.1C
          3229.1A 3307.1A 5740.1A 5752.1A 5899.1C
          5899.1C 8276.1C 8279.1T 12310.1A 15944.1T
          16169.1C 16259.1A
          C5899.1d!  459.1Cd!
          60.1TT 292.1AT 368.1AGAA
          8289.1CCCCCTCTA 8289.1CCCCCTCTACCCCCTCTA

          455.2T 2232.2A

          (573.XC) (745.1T) (960.1C)
          (C965d) (C16193d)
          reserved".

(** The allowlist: [re.split("\s+", ...)] of the text above. *)
Definition exceptions : list str := re_split_ws (py EXCEPTIONS_text).

(* "|".join([re.escape(i) for i in ...]) *)
Definition join_alternatives (rs : list regex) : regex :=
  match rs with
  | [] => Eps
  | r :: rs' => Alts r rs'
  end.

Definition EXCEPTIONS : regex := join_alternatives (map Lit exceptions).

(* (?: REGULAR | EXCEPTIONS ) *)
Definition BRANCH_CONDITION : regex := Alt REGULAR EXCEPTIONS.

(* \A BRANCH_CONDITION (?:\s BRANCH_CONDITION)* \Z *)
Definition BRANCH_CONDITIONS : regex :=
  Seqs [ Bos;
         BRANCH_CONDITION;
         Star (Seq space BRANCH_CONDITION);
         Eos ].

(* "mt\-MRCA" *)
Definition TABLE_TITLE : regex := Lit (py "mt-MRCA").

Definition is_irregular (text : str) : bool := search IRREGULAR text.
Definition is_table_title (text : str) : bool := search TABLE_TITLE text.
Definition is_branch_conditions (text : str) : bool :=
  search BRANCH_CONDITIONS text.

End Pattern.

(** ** Python values and exceptions *)

Module Py.

Inductive exn : Type :=
| IndexError
| KeyError
| TypeError
| AttributeError
| NameError
| DuplicateDetectionError.   (* class DuplicateDetectionError(Exception) *)

Inductive result (A : Type) : Type :=
| Ok (a : A)
| Raise (e : exn).
Arguments Ok {A} a.
Arguments Raise {A} e.

Definition bind {A B} (x : result A) (f : A -> result B) : result B :=
  match x with
  | Ok a => f a
  | Raise e => Raise e
  end.

(** An insertion-ordered [dict]: [d[k] = v] keeps the place of a key that
    is present and appends a new one. *)
Section Dict.
Variables K V : Type.
Variable eqb : K -> K -> bool.

Fixpoint dict_get (d : list (K * V)) (k : K) : option V :=
  match d with
  | [] => None
  | (k', v) :: d' => if eqb k k' then Some v else dict_get d' k
  end.

Definition dict_mem (k : K) (d : list (K * V)) : bool :=
  match dict_get d k with Some _ => true | None => false end.

Fixpoint dict_set (d : list (K * V)) (k : K) (v : V) : list (K * V) :=
  match d with
  | [] => [(k, v)]
  | (k', v') :: d' =>
      if eqb k k' then (k', v) :: d' else (k', v') :: dict_set d' k v
  end.
End Dict.

(** The values the parser stores: strings, lists of strings and dicts
    with string keys. *)
#[local] Unset Elimination Schemes.
Inductive value : Type :=
| VStr (s : str)
| VList (l : list str)
| VDict (d : list (str * value)).
#[local] Set Elimination Schemes.

(** Induction on values, through the entries of a dict. *)
Section ValueInd.
Variable P : value -> Prop.
Hypothesis HStr : forall s, P (VStr s).
Hypothesis HList : forall l, P (VList l).
Hypothesis HDict : forall d, Forall (fun kv => P (snd kv)) d -> P (VDict d).

Fixpoint value_ind (v : value) : P v :=
  match v with
  | VStr s => HStr s
  | VList l => HList l
  | VDict d =>
      HDict
        ((fix entries (d : list (str * value))
            : Forall (fun kv => P (snd kv)) d :=
            match d with
            | [] => Forall_nil _
            | (k, x) :: d' =>
                Forall_cons (k, x) (value_ind x : P (snd (k, x))) (entries d')
            end) d)
  end.
End ValueInd.

Definition dict := list (str * value).

Definition get (d : dict) (k : str) : option value := dict_get str_eqb d k.
Definition mem (k : str) (d : dict) : bool := dict_mem str_eqb k d.
Definition set (d : dict) (k : str) (v : value) : dict :=
  dict_set str_eqb d k v.

(** Truth value of an object. *)
Definition truthy (v : value) : bool :=
  match v with
  | VStr [] | VList [] | VDict [] => false
  | _ => true
  end.

(** [v[key]] for a string key. *)
Definition getitem (v : value) (key : str) : result value :=
  match v with
  | VDict d =>
      match get d key with
      | Some x => Ok x
      | None => Raise KeyError
      end
  | _ => Raise TypeError
  end.

(** [key in v] *)
Definition contains (v : value) (key : str) : bool :=
  match v with
  | VDict d => mem key d
  | VList l => existsb (str_eqb key) l
  | VStr s => Re.search (Re.Lit key) s
  end.

(** [l[i]] on a list, with Python's negative indices. *)
Definition index {A} (l : list A) (i : Z) : result A :=
  let n := Z.of_nat (length l) in
  let j := (if i <? 0 then i + n else i)%Z in
  if ((j <? 0) || (n <=? j))%Z then Raise IndexError
  else match nth_error l (Z.to_nat j) with
       | Some x => Ok x
       | None => Raise IndexError
       end.

(** [list(range(n))] *)
Definition range (n : Z) : list Z := map Z.of_nat (seq 0 (Z.to_nat n)).

(** [enumerate(l)] *)
Definition enumerate {A} (l : list A) : list (Z * A) :=
  combine (range (Z.of_nat (length l))) l.

End Py.

Import Py.
Import Pattern.

Declare Scope py_scope.
Notation "x <- c1 ;; c2" := (bind c1 (fun x => c2))
  (at level 61, c1 at next level, right associativity) : py_scope.
Notation "' pat <- c1 ;; c2" := (bind c1 (fun x => match x with pat => c2 end))
  (at level 61, pat pattern, c1 at next level, right associativity) : py_scope.
Open Scope py_scope.

(** ** [class Strings] and [trim_white_space] *)

(* re.sub('^\s+', '', v): the leading run of white space goes. *)
Fixpoint sub_leading_ws (v : str) : str :=
  match v with
  | [] => []
  | c :: v' => if is_space c then sub_leading_ws v' else v
  end.

(* re.sub('\s+$', '', v): the trailing run of white space goes. *)
Definition sub_trailing_ws (v : str) : str :=
  rev (sub_leading_ws (rev v)).

(* re.sub('\s+', ' ', v): every maximal run of white space becomes one
   space. *)
Fixpoint sub_ws_runs_from (in_ws : bool) (v : str) : str :=
  match v with
  | [] => []
  | c :: v' =>
      if is_space c
      then if in_ws then sub_ws_runs_from true v'
           else " "%char :: sub_ws_runs_from true v'
      else c :: sub_ws_runs_from false v'
  end.

Definition sub_ws_runs (v : str) : str := sub_ws_runs_from false v.

Definition trim_white_space (text : str) : str :=
  sub_ws_runs (sub_trailing_ws (sub_leading_ws text)).

(** ** [class PhylotreeParser] *)

Definition BLANK_BRANCH_NAME : str := py "__BRANCH__".
Definition SELF_BRANCH_NAME : str := py "__SELF__".

Definition queue_t := list (Z * str).

Record parser : Type := mkParser {
  in_useful_range : bool;
  queue : queue_t;           (* self.queue = {} *)
  raw_tree : dict            (* self.raw_tree = {} *)
}.

(* __init__ *)
Definition init : parser := mkParser false [] [].

(** A [tr] as the markup parser hands it over: its text and the texts of
    its [td] cells. *)
Record tr_t : Type := mkTr {
  get_text : str;
  find_all_td : list str
}.

Definition is_in_useful_range (self : parser) (text : str) : bool * parser :=
  if negb (in_useful_range self) && is_table_title text
  then (false, mkParser true (queue self) (raw_tree self))
  else (in_useful_range self, self).

(* [cols[i] for i in [-2, -1] if cols[i]] *)
Fixpoint comprehension (cols : list str) (idxs : list Z)
  : result (list str) :=
  match idxs with
  | [] => Ok []
  | i :: idxs' =>
      c <- index cols i ;;
      rest <- comprehension cols idxs' ;;
      Ok (if truthy (VStr c) then c :: rest else rest)
  end.

Definition extract_example_accessions (cols : list str) : result (list str) :=
  comprehension cols [-2; -1]%Z.

(** The loop of [detect_haplogroup].  [DuplicateDetectionError] is bound in
    the body of [class PhylotreeParser]; a class body is not an enclosing
    scope of its methods, so evaluating the bare name in
    [raise DuplicateDetectionError] raises [NameError]. *)
Fixpoint detect_loop (candidates example_accessions : list str)
         (haplogroup : str) : result str :=
  match candidates with
  | [] => Ok haplogroup
  | candidate :: rest =>
      if existsb (str_eqb candidate) example_accessions
      then detect_loop rest example_accessions haplogroup
      else if truthy (VStr haplogroup)
           then Raise NameError
           else detect_loop rest example_accessions candidate
  end.

Definition detect_haplogroup (candidates example_accessions : list str)
  : result str :=
  haplogroup <- detect_loop candidates example_accessions [] ;;
  Ok (if negb (truthy (VStr haplogroup)) then BLANK_BRANCH_NAME
      else haplogroup).

(** [get_deep_hash] returns a reference into the tree it walks; the caller
    writes through it.  The reference is the node reached together with the
    write-back that puts a new content for that node in its place in
    [dic]. *)
Fixpoint get_deep_hash (dic : value) (arr : queue_t) (itr : list Z)
  : result (value * (value -> value)) :=
  match itr with
  | [] => Raise IndexError                       (* itr[0] *)
  | idx :: itr' =>
      match dict_get Z.eqb arr idx with
      | None => Raise KeyError                   (* arr[idx] *)
      | Some key =>
          match dic with
          | VDict d =>
              let d1 := if negb (mem key d) then set d key (VDict []) else d in
              match get d1 key with
              | None => Raise KeyError
              | Some next_dic =>
                  match itr' with
                  | [] => Ok (next_dic, fun n => VDict (set d1 key n))
                  | _ =>
                      '(node, put) <- get_deep_hash next_dic arr itr' ;;
                      Ok (node, fun n => VDict (set d1 key (put n)))
                  end
              end
          | _ => Raise TypeError
          end
      end
  end.

(* node[key] = v *)
Definition setitem (node : value) (key : str) (v : value) : result value :=
  match node with
  | VDict d => Ok (VDict (set d key v))
  | _ => Raise TypeError
  end.

Definition self_branch_of (conditions example_accessions : list str) : value :=
  VDict [ (py "conditions", VList conditions);
          (py "example_accessions", VList example_accessions) ].

Definition grow_tree (self : parser) (haplogroup : str)
           (conditions example_accessions : list str) (depth : Z)
  : result parser :=
  let queue' := dict_set Z.eqb (queue self) depth haplogroup in
  '(node, put) <- get_deep_hash (VDict (raw_tree self)) queue'
                                (range (depth + 1)) ;;
  node' <- setitem node SELF_BRANCH_NAME
                   (self_branch_of conditions example_accessions) ;;
  match put node' with
  | VDict raw_tree' => Ok (mkParser (in_useful_range self) queue' raw_tree')
  | _ => Raise TypeError
  end.

(** The locals of [process_tr]. *)
Record locals : Type := mkLocals {
  cols : list str;
  conditions : list str;
  depth : Z;
  haplogroup_candidates : list str
}.

Definition process_td (l : locals) (itd : Z * str) : locals :=
  let '(i, raw) := itd in
  let text := trim_white_space raw in
  let cols' := cols l ++ [text] in
  if (length text =? 0)%nat
  then mkLocals cols' (conditions l) (depth l) (haplogroup_candidates l)
  else if is_branch_conditions text
       then mkLocals cols' (split " " text) (i - 1) (haplogroup_candidates l)
       else mkLocals cols' (conditions l) (depth l)
                     (haplogroup_candidates l ++ [text]).

(** What [process_tr] hands to [grow_tree]. *)
Record interpreted_row : Type := mkRow {
  row_haplogroup : str;
  row_conditions : list str;
  row_example_accessions : list str;
  row_depth : Z
}.

(** [process_tr] up to the call of [grow_tree]: [None] is the early
    [return] of a row without conditions. *)
Definition interpret_tr (tds : list str) : result (option interpreted_row) :=
  let l := fold_left process_td (enumerate tds) (mkLocals [] [] 0 []) in
  if (length (conditions l) =? 0)%nat then Ok None
  else
    example_accessions <- extract_example_accessions (cols l) ;;
    haplogroup <- detect_haplogroup (haplogroup_candidates l)
                                    example_accessions ;;
    Ok (Some (mkRow haplogroup (conditions l) example_accessions (depth l))).

Definition process_tr (self : parser) (tds : list str) : result parser :=
  r <- interpret_tr tds ;;
  match r with
  | None => Ok self
  | Some row =>
      grow_tree self (row_haplogroup row) (row_conditions row)
                (row_example_accessions row) (row_depth row)
  end.

Fixpoint process_table (self : parser) (table : list tr_t) : result parser :=
  match table with
  | [] => Ok self
  | tr :: rest =>
      let '(useful, self1) := is_in_useful_range self (get_text tr) in
      if negb useful then process_table self1 rest
      else
        self2 <- process_tr self1 (find_all_td tr) ;;
        process_table self2 rest
  end.

(** [parse], over the tables of the document. *)
Fixpoint parse (self : parser) (tables : list (list tr_t)) : result parser :=
  match tables with
  | [] => Ok self
  | table :: rest =>
      self1 <- process_table self table ;;
      parse self1 rest
  end.

(** ** The tree normalizer *)

(* for (name, branches) in raw_tree.items(): ... *)
Definition prettify_items (rec : value -> result value)
  : dict -> dict -> result dict :=
  fix loop (items descentants : dict) : result dict :=
    match items with
    | [] => Ok descentants
    | (name, branches) :: rest =>
        if negb (str_eqb name SELF_BRANCH_NAME)
        then p <- rec branches ;; loop rest (set descentants name p)
        else loop rest descentants
    end.

Fixpoint _prettify (raw_tree : value) : result value :=
  match raw_tree with
  | VDict d =>
      let self_branch := if mem SELF_BRANCH_NAME d
                         then get d SELF_BRANCH_NAME else None in
      descentants <- prettify_items _prettify d [] ;;
      pretty_tree <-
        match self_branch with
        | Some sb =>
            if truthy sb
            then c <- getitem sb (py "conditions") ;;
                 e <- getitem sb (py "example_accessions") ;;
                 Ok (set (set [] (py "conditions") c)
                         (py "example_accessions") e)
            else Ok []
        | None => Ok []
        end ;;
      Ok (VDict (if negb (length descentants =? 0)%nat
                 then set pretty_tree (py "descentants") (VDict descentants)
                 else pretty_tree))
  | _ =>
      (* [SELF_BRANCH_NAME in raw_tree] is evaluated, then either
         [raw_tree[...]] or [raw_tree.items()] fails *)
      if contains raw_tree SELF_BRANCH_NAME then Raise TypeError
      else Raise AttributeError
  end.

Definition prettify (self : parser) : result value :=
  _prettify (VDict (raw_tree self)).

(** ** Flattening

    [_prettify_to_array] appends to the list object [pretty_tree] and hands
    the same object back; the model threads the content of that object, and
    gives it back next to the outcome, also when an exception ends the
    call. [None] is a recursion that exceeds [fuel]. *)

Definition paths := list (list value).

Fixpoint height (v : value) : nat :=
  match v with
  | VDict d => S (fold_right (fun kv h => Nat.max (height (snd kv)) h) 0 d)
  | _ => 0
  end.

Definition items (v : value) : result dict :=
  match v with
  | VDict d => Ok d
  | _ => Raise AttributeError
  end.

(* for name, branches in raw_tree['descentants'].items(): ... *)
Definition flatten_items
           (rec : value -> paths -> option (paths * result unit))
           (parent : list value)
  : dict -> paths -> option (paths * result unit) :=
  fix loop (its : dict) (pretty_tree : paths) : option (paths * result unit) :=
    match its with
    | [] => Some (pretty_tree, Ok tt)
    | (name, branches) :: rest =>
        match getitem branches (py "conditions") with
        | Raise e => Some (pretty_tree, Raise e)
        | Ok c =>
            let current :=
              parent ++ [VDict (set (set [] (py "name") (VStr name))
                                    (py "conditions") c)] in
            let pretty_tree1 := pretty_tree ++ [current] in
            match getitem branches (py "descentants") with
            | Raise e => Some (pretty_tree1, Raise e)
            | Ok dsc =>
                if truthy dsc
                then match rec branches pretty_tree1 with
                     | Some (pretty_tree2, Ok _) => loop rest pretty_tree2
                     | other => other
                     end
                else loop rest pretty_tree1
            end
        end
    end.

Fixpoint _prettify_to_array (fuel : nat) (raw_tree : value)
         (pretty_tree : paths) (parent : list value)
  : option (paths * result unit) :=
  match fuel with
  | O => None
  | S fuel' =>
      match (ds <- getitem raw_tree (py "descentants") ;; items ds) with
      | Raise e => Some (pretty_tree, Raise e)
      | Ok its =>
          (* the recursive call passes [parent], not [current] *)
          flatten_items
            (fun branches pretty_tree1 =>
               _prettify_to_array fuel' branches pretty_tree1 parent)
            parent its pretty_tree
      end
  end.

(** [prettify_to_array]: both optional arguments take their defaults, and
    the default of [pretty_tree] is one list object, made when the method
    is defined and shared by all calls; [default_pretty_tree] is its
    content at the time of the call. *)
Definition prettify_to_array (self : parser) (default_pretty_tree : paths)
  : option (paths * result unit) :=
  match prettify self with
  | Raise e => Some (default_pretty_tree, Raise e)
  | Ok p => _prettify_to_array (S (height p)) p default_pretty_tree []
  end.

(** ** Token shapes

    The shapes of tokens, written out on strings: what the claims call a
    regular token, and the irregular forms as [IRREGULAR] has them. *)

Module Forms.

Definition is_base (c : ascii) : bool := one_of "atgcATGC" c.

(** One or more digits; one or more base letters; zero or more [!]. *)
Definition digits (ds : str) : Prop :=
  ds <> [] /\ forallb is_digit ds = true.
Definition bases (bs : str) : Prop :=
  bs <> [] /\ forallb is_base bs = true.
Definition bangs (x : str) : Prop := forallb (chr_eqb "!") x = true.

(** An optional character. *)
Definition opt_chr (c : ascii) (x : str) : Prop := x = [] \/ x = [c].
Definition opt_one (p : ascii -> bool) (x : str) : Prop :=
  x = [] \/ exists c, x = [c] /\ p c = true.

(** A regular token: optional [(], one base letter, one or more digits,
    one base letter, zero or more [!], optional [)]. *)
Definition regular_token (t : str) : Prop :=
  exists lp b1 ds b2 bs rp,
    t = lp ++ b1 :: ds ++ b2 :: bs ++ rp
    /\ opt_chr "(" lp
    /\ is_base b1 = true
    /\ digits ds
    /\ is_base b2 = true
    /\ bangs bs
    /\ opt_chr ")" rp.

(** Deletion [<base?><pos>d]. *)
Definition deletion_form (body : str) : Prop :=
  exists b ds,
    body = b ++ ds ++ ["d"%char] /\ opt_one is_base b /\ digits ds.

(** Insertion [<pos>.<digit or X>?<base>+d?]. *)
Definition insertion_form (body : str) : Prop :=
  exists ds x bs d,
    body = ds ++ "."%char :: x ++ bs ++ d
    /\ digits ds
    /\ opt_one (fun c => is_digit c || chr_eqb c "X") x
    /\ bases bs
    /\ opt_chr "d" d.

(** Range deletion [<pos>-<pos>d]. *)
Definition range_form (body : str) : Prop :=
  exists d1 d2,
    body = d1 ++ "-"%char :: d2 ++ ["d"%char] /\ digits d1 /\ digits d2.

(** An irregular form with its optional parentheses and trailing
    reversion marks. *)
Definition irregular_form (t : str) : Prop :=
  exists lp body bs rp,
    t = lp ++ body ++ bs ++ rp
    /\ opt_chr "(" lp
    /\ (deletion_form body \/ insertion_form body \/ range_form body
        \/ body = py "reserved")
    /\ bangs bs
    /\ opt_chr ")" rp.

(** One token is a valid branch condition: a regular token or a member
    of the allowlist. *)
Definition valid_token (t : str) : Prop :=
  regular_token t \/ In t exceptions.

(** One or more tokens, each two neighbours separated by one white-space
    character. *)
Inductive separated (token : str -> Prop) : str -> Prop :=
| sep_one t : token t -> separated token t
| sep_more t w rest :
    token t -> is_space w = true -> separated token rest ->
    separated token (t ++ w :: rest).

Definition ws_separated : str -> Prop := separated valid_token.

(** Sets of characters used to tell token shapes apart. *)
Definition not_space (c : ascii) : bool := negb (is_space c).
Definition closing (c : ascii) : bool :=
  is_base c || chr_eqb "!" c || chr_eqb ")" c.
Definition base_or_bang (c : ascii) : bool := is_base c || chr_eqb "!" c.
Definition d_or_dot (c : ascii) : bool := chr_eqb c "d" || chr_eqb c ".".
Definition not_d_or_dot (c : ascii) : bool := negb (d_or_dot c).

(** The last character of a string. *)
Definition last_chr (t : str) : option ascii :=
  match rev t with
  | [] => None
  | c :: _ => Some c
  end.

End Forms.

(** ** The grammar in the words of the specification *)

Module Spec.
Import Re Forms.

(** The irregular forms as the specification writes them:
    deletion [<pos><base?>d], insertion [<pos>.X?<base>+d?],
    range-deletion [<pos>-<pos>d], the word [reserved]; each with
    optional parentheses and trailing reversion marks. *)
Definition pos : regex := Plus (Cls is_digit).
Definition base : regex := Cls is_base.

Definition irregular_forms : regex :=
  Alts (Seqs [ pos; Opt base; Chr "d" ])
       [ Seqs [ pos; Chr "."; Opt (Chr "X"); Plus base; Opt (Chr "d") ];
         Seqs [ pos; Chr "-"; pos; Chr "d" ];
         Lit (py "reserved") ].

(** A whole-token match of such a form. *)
Definition irregular_token : regex :=
  Seqs [ Bos; Opt (Chr "("); irregular_forms; Star (Chr "!");
         Opt (Chr ")"); Eos ].

Definition is_irregular_spec (text : str) : bool :=
  search irregular_token text.

(** [sep.join(tokens)] *)
Fixpoint join (sep : str) (tokens : list str) : str :=
  match tokens with
  | [] => []
  | [t] => t
  | t :: rest => t ++ sep ++ join sep rest
  end.

(** One or more valid tokens separated by single spaces. *)
Definition single_space_separated (text : str) : Prop :=
  exists tokens, tokens <> [] /\ Forall valid_token tokens
                 /\ text = join [" "%char] tokens.

End Spec.

(** ** Vocabulary for the statements about rows and trees *)

Module Rows.

(** A cell holds conditions; a cell is a candidate for the haplogroup. *)
Definition nonempty (t : str) : bool := negb (length t =? 0)%nat.

Definition is_condition_cell (raw : str) : bool :=
  nonempty (trim_white_space raw)
  && is_branch_conditions (trim_white_space raw).

Definition is_candidate (text : str) : bool :=
  nonempty text && negb (is_branch_conditions text).

(** The candidates left once the example accessions are discarded. *)
Definition remaining (candidates example_accessions : list str) : list str :=
  filter (fun c => negb (existsb (str_eqb c) example_accessions)) candidates.

(** [process_tr] on each row in turn, without the range filter. *)
Fixpoint process_rows (self : parser) (rows : list (list str))
  : result parser :=
  match rows with
  | [] => Ok self
  | tds :: rest => self1 <- process_tr self tds ;; process_rows self1 rest
  end.

(** The verdicts of [is_in_useful_range] over a stream of row texts. *)
Fixpoint verdicts (self : parser) (texts : list str) : list bool * parser :=
  match texts with
  | [] => ([], self)
  | text :: rest =>
      let '(b, self1) := is_in_useful_range self text in
      let '(bs, self2) := verdicts self1 rest in
      (b :: bs, self2)
  end.

Definition set_useful (self : parser) : parser :=
  mkParser true (queue self) (raw_tree self).

(** [enumerate] from a first index on. *)
Definition enumerate_from (k : nat) (l : list str) : list (Z * str) :=
  combine (map Z.of_nat (seq k (length l))) l.

End Rows.

(** ** Vocabulary for the statements about trees *)

Module Trees.

(** The node reached from [v] along a path of keys. *)
Fixpoint walk (v : value) (path : list str) : option value :=
  match path with
  | [] => Some v
  | k :: rest =>
      match v with
      | VDict d =>
          match get d k with
          | Some child => walk child rest
          | None => None
          end
      | _ => None
      end
  end.

(** The payload of a row as the tree holds it, written out: a dict of the
    conditions under ['conditions'] and of the example accessions under
    ['example_accessions'], in this order. *)
Abbreviation payload_of c e :=
  (VDict [ (py "conditions", VList c); (py "example_accessions", VList e) ]).

(** A raw tree: below every key other than the self-branch key there is a
    raw tree again. *)
Inductive raw_node : value -> Prop :=
| raw_node_dict d :
    (forall k v, In (k, v) d -> k <> SELF_BRANCH_NAME -> raw_node v) ->
    raw_node (VDict d).

(** Two paths that part at some key. *)
Inductive diverges : list str -> list str -> Prop :=
| div_here k k' p q : k <> k' -> diverges (k :: p) (k' :: q)
| div_later k p q : diverges p q -> diverges (k :: p) (k :: q).

(** The shape of what [_prettify] returns: a dict whose ['descentants']
    entry, when there is one, is a non-empty dict of such dicts. *)
Inductive pretty : value -> Prop :=
| pretty_leaf b : get b (py "descentants") = None -> pretty (VDict b)
| pretty_inner b ds :
    get b (py "descentants") = Some (VDict ds) -> ds <> [] ->
    (forall k v, In (k, v) ds -> pretty v) ->
    pretty (VDict b).

(** The dict after [if not key in dic: dic[key] = {}]. *)
Definition ensured (d : dict) (key : str) : dict :=
  if negb (mem key d) then set d key (VDict []) else d.

(** [keys] are the entries of the queue at the indices [itr]. *)
Definition queue_keys (arr : queue_t) (itr : list Z) (keys : list str) : Prop :=
  Forall2 (fun idx key => dict_get Z.eqb arr idx = Some key) itr keys.

End Trees.

(** ** Vocabulary for the statements about normalized text and grown trees *)

Module Shapes.
Import Forms Trees.

(** The text does not start, or does not end, with white space. *)
Definition head_ok (t : str) : bool :=
  match t with
  | [] => true
  | c :: _ => negb (is_space c)
  end.

Definition ends_ok (t : str) : bool := head_ok (rev t).

(** Every white-space character is a space with a character that is not
    white space after it. *)
Fixpoint inner_ok (t : str) : bool :=
  match t with
  | [] => true
  | c :: t' =>
      (if is_space c
       then chr_eqb c " " && match t' with
                             | [] => false
                             | c' :: _ => negb (is_space c')
                             end
       else true)
      && inner_ok t'
  end.

(** Normalized text: no white space at either end, and single spaces as
    the only white space inside. *)
Definition normalized (t : str) : bool := head_ok t && inner_ok t.

(** The text holds the string [w]. *)
Definition holds (w text : str) : Prop :=
  exists before after, text = before ++ w ++ after.

(** A tree as the accumulator grows it: the self-branch entry of a node is
    a payload of conditions and example accessions, every other entry is
    such a node again. *)
Inductive grown : value -> Prop :=
| grown_dict d :
    (forall k v, In (k, v) d -> k = SELF_BRANCH_NAME ->
                 exists c e : list str, v = payload_of c e) ->
    (forall k v, In (k, v) d -> k <> SELF_BRANCH_NAME -> grown v) ->
    grown (VDict d).

(** The parser holds a grown tree and no queued name is the reserved
    self-branch key. *)
Definition parser_ok (self : parser) : Prop :=
  grown (VDict (raw_tree self))
  /\ forall i k, dict_get Z.eqb (queue self) i = Some k ->
                 k <> SELF_BRANCH_NAME.

(** No cell of the row, of the table, of the document reads as the reserved
    self-branch key. *)
Definition row_ok (tds : list str) : Prop :=
  Forall (fun raw => trim_white_space raw <> SELF_BRANCH_NAME) tds.
Definition table_ok (table : list tr_t) : Prop :=
  Forall (fun tr => row_ok (find_all_td tr)) table.
Definition document_ok (tables : list (list tr_t)) : Prop :=
  Forall table_ok tables.

(** The entries of a normalized node for its own row: the conditions and
    the example accessions, both of them lists, or neither of the two. *)
Definition payload_ok (b : dict) : Prop :=
  (exists c e, get b (py "conditions") = Some (VList c)
               /\ get b (py "example_accessions") = Some (VList e))
  \/ (get b (py "conditions") = None
      /\ get b (py "example_accessions") = None).

(** A normalized tree: every node has the entries of its own row together
    or not at all, and its ['descentants'] entry, when there is one, is a
    non-empty dict of such nodes. *)
Inductive shaped : value -> Prop :=
| shaped_leaf b :
    payload_ok b -> get b (py "descentants") = None -> shaped (VDict b)
| shaped_inner b ds :
    payload_ok b ->
    get b (py "descentants") = Some (VDict ds) -> ds <> [] ->
    (forall k v, In (k, v) ds -> shaped v) ->
    shaped (VDict b).

(** A path entry of the flattening. *)
Definition path_entry (name : str) (c : value) : value :=
  VDict (set (set [] (py "name") (VStr name)) (py "conditions") c).

(** The paths appended to [pretty_tree]: [parent] and one entry. *)
Definition appended (parent : list value) (pretty_tree out : paths) : Prop :=
  exists added,
    out = pretty_tree ++ added
    /\ Forall (fun path => exists name c, path = parent ++ [path_entry name c])
              added.

End Shapes.

(** * Properties *)

(** ** Strings and characters *)

Lemma str_eqb_eq a b : str_eqb a b = true <-> a = b.
Proof.
  unfold str_eqb. destruct (list_eq_dec ascii_dec a b); split; congruence.
Qed.

Lemma str_eqb_neq a b : str_eqb a b = false <-> a <> b.
Proof.
  unfold str_eqb. destruct (list_eq_dec ascii_dec a b); split; congruence.
Qed.

Lemma str_eqb_refl a : str_eqb a a = true.
Proof. now apply str_eqb_eq. Qed.


Lemma chr_eqb_eq a b : chr_eqb a b = true <-> a = b.
Proof. apply Ascii.eqb_eq. Qed.

Lemma chr_eqb_refl a : chr_eqb a a = true.
Proof. now apply chr_eqb_eq. Qed.

Lemma forallb_chr_eqb c m :
  forallb (chr_eqb c) m = true <-> m = repeat c (length m).
Proof.
  induction m as [|x m IH]; simpl; [tauto|].
  rewrite andb_true_iff, chr_eqb_eq, IH. split.
  - intros [-> E]. now rewrite <- E.
  - intros E. injection E as -> E. split; [reflexivity|exact E].
Qed.

(** ** The matcher and the declarative semantics agree *)

Module ReFacts.
Import Re.

Lemma star_loop_sound (r : regex) :
  (forall pre s k, run r pre s k = true ->
     exists m s', s = m ++ s' /\ M r (rev pre) m s'
                  /\ k (rev m ++ pre) s' = true) ->
  forall n pre s k, star_loop (run r) n pre s k = true ->
    exists m s', s = m ++ s' /\ M (Star r) (rev pre) m s'
                 /\ k (rev m ++ pre) s' = true.
Proof.
  intros IHr n. induction n as [|n IHn]; intros pre s k H;
    simpl in H; apply orb_true_iff in H as [H|H].
  - apply IHr in H as (m & s' & _ & _ & H).
    rewrite andb_false_r in H. discriminate.
  - exists [], s. repeat split; [constructor | exact H].
  - apply IHr in H as (m1 & s1 & -> & H1 & H).
    apply andb_true_iff in H as [_ H].
    apply IHn in H as (m2 & s2 & -> & H2 & H).
    exists (m1 ++ m2), s2. rewrite app_assoc. split; [reflexivity|]. split.
    + apply MStarS; [exact H1|]. now rewrite rev_app_distr, rev_involutive in H2.
    + now rewrite rev_app_distr, <- app_assoc.
  - exists [], s. repeat split; [constructor | exact H].
Qed.

Lemma run_sound r : forall pre s k,
  run r pre s k = true ->
  exists m s', s = m ++ s' /\ M r (rev pre) m s' /\ k (rev m ++ pre) s' = true.
Proof.
  induction r; intros pre s k H; simpl in H.
  - exists [], s. repeat split; [constructor | exact H].
  - destruct pre; [|discriminate].
    exists [], s. repeat split; [constructor | exact H].
  - destruct s; [|discriminate].
    exists [], []. repeat split; [constructor | exact H].
  - destruct s as [|c s]; [discriminate|].
    apply andb_true_iff in H as [Hp H].
    exists [c], s. repeat split; [now constructor | exact H].
  - apply IHr1 in H as (m1 & s1 & -> & H1 & H).
    apply IHr2 in H as (m2 & s2 & -> & H2 & H).
    exists (m1 ++ m2), s2. rewrite app_assoc. split; [reflexivity|]. split.
    + apply MSeq; [exact H1|]. now rewrite rev_app_distr, rev_involutive in H2.
    + now rewrite rev_app_distr, <- app_assoc.
  - apply orb_true_iff in H as [H|H].
    + apply IHr1 in H as (m & s' & -> & H1 & H).
      exists m, s'. repeat split; [now apply MAltL | exact H].
    + apply IHr2 in H as (m & s' & -> & H1 & H).
      exists m, s'. repeat split; [now apply MAltR | exact H].
  - now apply star_loop_sound in H.
Qed.

Lemma star_loop_complete (r : regex) :
  (forall pre k l m a, M r l m a -> rev pre = l ->
     k (rev m ++ pre) a = true -> run r pre (m ++ a) k = true) ->
  forall sr l m a, M sr l m a -> sr = Star r ->
  forall n pre k, length (m ++ a) <= n -> rev pre = l ->
    k (rev m ++ pre) a = true ->
    star_loop (run r) n pre (m ++ a) k = true.
Proof.
  intros IHr sr l m a HM.
  induction HM; intros E; try discriminate E; injection E as ->;
    intros n pre k Hn Hl Hk.
  - destruct n; simpl; apply orb_true_iff; right; exact Hk.
  - destruct m1 as [|c m1].
    + simpl in *. rewrite app_nil_r in IHHM2. now apply IHHM2.
    + destruct n as [|n]; [simpl in Hn; lia|].
      simpl. apply orb_true_iff. left.
      change (c :: (m1 ++ m2) ++ a) with (((c :: m1) ++ m2) ++ a).
      rewrite <- app_assoc.
      apply IHr with (l := l); [exact HM1 | exact Hl |].
      apply andb_true_iff. split.
      * apply Nat.ltb_lt. rewrite !length_app. simpl. lia.
      * apply IHHM2; [reflexivity | | |].
        -- simpl in Hn. rewrite !length_app in *. simpl in Hn. lia.
        -- rewrite rev_app_distr, rev_involutive. now subst l.
        -- now rewrite rev_app_distr, <- app_assoc in Hk.
Qed.

Lemma run_complete r : forall pre k l m a,
  M r l m a -> rev pre = l -> k (rev m ++ pre) a = true ->
  run r pre (m ++ a) k = true.
Proof.
  induction r; intros pre k l m a HM Hl Hk.
  - inversion HM; subst. exact Hk.
  - inversion HM; subst. simpl.
    destruct pre as [|c pre]; [exact Hk|]. exfalso.
    match goal with
    | E : _ = [] |- _ => simpl in E; apply app_eq_nil in E as [_ E];
                         discriminate E
    | E : [] = _ |- _ => simpl in E; symmetry in E;
                         apply app_eq_nil in E as [_ E]; discriminate E
    end.
  - inversion HM; subst. exact Hk.
  - inversion HM; subst. simpl. rewrite H0. exact Hk.
  - inversion HM; subst. simpl. rewrite <- app_assoc.
    eapply IHr1; [eassumption | reflexivity |].
    eapply IHr2; [eassumption | |].
    + now rewrite rev_app_distr, rev_involutive.
    + now rewrite rev_app_distr, <- app_assoc in Hk.
  - simpl. apply orb_true_iff. inversion HM; subst.
    + left. eapply IHr1; eauto.
    + right. eapply IHr2; eauto.
  - simpl. eapply star_loop_complete; eauto.
Qed.

Lemma search_from_sound r : forall s pre,
  search_from r pre s = true ->
  exists l m a, s = l ++ m ++ a /\ M r (rev pre ++ l) m a.
Proof.
  induction s as [|c s IH]; intros pre H; simpl in H;
    apply orb_true_iff in H as [H|H]; try discriminate.
  - apply run_sound in H as (m & a & E & H & _).
    exists [], m, a. now rewrite app_nil_r.
  - apply run_sound in H as (m & a & E & H & _).
    exists [], m, a. now rewrite app_nil_r.
  - apply IH in H as (l & m & a & -> & H).
    exists (c :: l), m, a. split; [reflexivity|].
    simpl in H. now rewrite <- app_assoc in H.
Qed.

Lemma search_from_complete r : forall l pre m a,
  M r (rev pre ++ l) m a -> search_from r pre (l ++ m ++ a) = true.
Proof.
  induction l as [|c l IH]; intros pre m a H.
  - rewrite app_nil_r in H. cbn [app].
    assert (run r pre (m ++ a) (fun _ _ => true) = true) as E
        by (eapply run_complete; eauto).
    destruct (m ++ a); cbn [search_from]; now rewrite E.
  - simpl. apply orb_true_iff. right. apply IH.
    simpl. now rewrite <- app_assoc.
Qed.

(** [search] finds a match exactly when some part of the text matches in
    its context. *)
Theorem search_spec r text :
  search r text = true <->
  exists l m a, text = l ++ m ++ a /\ M r l m a.
Proof.
  unfold search. split.
  - intros H. now apply search_from_sound in H.
  - intros (l & m & a & -> & H). now apply search_from_complete.
Qed.

End ReFacts.

(** ** Matching, pattern by pattern *)

Module MFacts.
Import Re.

Lemma M_Eps l m a : M Eps l m a <-> m = [].
Proof.
  split; [intros H; now inversion H | intros ->; constructor].
Qed.

Lemma M_Bos l m a : M Bos l m a <-> l = [] /\ m = [].
Proof.
  split; [intros H; now inversion H | intros [-> ->]; constructor].
Qed.

Lemma M_Eos l m a : M Eos l m a <-> m = [] /\ a = [].
Proof.
  split; [intros H; now inversion H | intros [-> ->]; constructor].
Qed.

Lemma M_Cls p l m a : M (Cls p) l m a <-> exists c, m = [c] /\ p c = true.
Proof.
  split.
  - intros H. inversion H; subst. eauto.
  - intros (c & -> & H). now constructor.
Qed.

Lemma M_Chr c l m a : M (Chr c) l m a <-> m = [c].
Proof.
  unfold Chr. rewrite M_Cls. split.
  - intros (x & -> & H). apply chr_eqb_eq in H. now subst.
  - intros ->. exists c. split; [reflexivity | apply chr_eqb_refl].
Qed.

Lemma M_Seq r1 r2 l m a :
  M (Seq r1 r2) l m a <->
  exists m1 m2, m = m1 ++ m2 /\ M r1 l m1 (m2 ++ a) /\ M r2 (l ++ m1) m2 a.
Proof.
  split.
  - intros H. inversion H; subst. eauto.
  - intros (m1 & m2 & -> & H1 & H2). now constructor.
Qed.

Lemma M_Alt r1 r2 l m a : M (Alt r1 r2) l m a <-> M r1 l m a \/ M r2 l m a.
Proof.
  split.
  - intros H. inversion H; subst; auto.
  - intros [H|H]; [now apply MAltL | now apply MAltR].
Qed.

Lemma M_Opt r l m a : M (Opt r) l m a <-> M r l m a \/ m = [].
Proof. unfold Opt. now rewrite M_Alt, M_Eps. Qed.

Lemma M_Star_Cls p m : forall l a,
  M (Star (Cls p)) l m a <-> forallb p m = true.
Proof.
  intros l a. split.
  - intros H. remember (Star (Cls p)) as r eqn:E.
    induction H; try discriminate E; injection E as ->; [reflexivity|].
    apply M_Cls in H as (c & -> & Hc). simpl. rewrite Hc. now apply IHM2.
  - revert l. induction m as [|c m IH]; intros l H; [constructor|].
    simpl in H. apply andb_true_iff in H as [Hc H].
    change (c :: m) with ([c] ++ m). apply MStarS; [now constructor | now apply IH].
Qed.

Lemma M_Plus_Cls p l m a :
  M (Plus (Cls p)) l m a <-> m <> [] /\ forallb p m = true.
Proof.
  unfold Plus. rewrite M_Seq. split.
  - intros (m1 & m2 & -> & H1 & H2).
    apply M_Cls in H1 as (c & -> & Hc). apply M_Star_Cls in H2.
    split; [discriminate | simpl; now rewrite Hc].
  - intros [Hne H]. destruct m as [|c m]; [congruence|].
    simpl in H. apply andb_true_iff in H as [Hc H].
    exists [c], m. repeat split; [now constructor | now apply M_Star_Cls].
Qed.

Lemma M_Star_Chr c l m a :
  M (Star (Chr c)) l m a <-> forallb (chr_eqb c) m = true.
Proof. apply M_Star_Cls. Qed.

Lemma M_Lit w : forall l m a, M (Lit w) l m a <-> m = w.
Proof.
  induction w as [|c w IH]; intros l m a; simpl.
  - apply M_Eps.
  - rewrite M_Seq. split.
    + intros (m1 & m2 & -> & H1 & H2).
      apply M_Chr in H1 as ->. apply IH in H2 as ->. reflexivity.
    + intros ->. exists [c], w. repeat split; [now apply M_Chr | now apply IH].
Qed.

Lemma M_Alts rs : forall r l m a,
  M (Alts r rs) l m a <-> M r l m a \/ Exists (fun r' => M r' l m a) rs.
Proof.
  induction rs as [|r' rs IH]; intros r l m a; simpl.
  - rewrite Exists_nil. tauto.
  - rewrite M_Alt, IH, Exists_cons. tauto.
Qed.

Lemma over_Cls P p c : over P (Cls p) = true -> p c = true -> P c = true.
Proof.
  cbn [over]. intros H Hp. rewrite forallb_forall in H.
  specialize (H (nat_of_ascii c)). cbv zeta in H.
  rewrite ascii_nat_embedding, Hp in H. apply H.
  apply in_seq. pose proof (nat_ascii_bounded c). lia.
Qed.

(** A match only consumes characters of the pattern's classes. *)
Lemma M_over P r l m a :
  M r l m a -> over P r = true -> forallb P m = true.
Proof.
  induction 1; intros Ho; try reflexivity.
  - cbn [forallb]. now rewrite (over_Cls P p c Ho H).
  - cbn [over] in Ho. apply andb_true_iff in Ho as [? ?].
    rewrite forallb_app. apply andb_true_iff. auto.
  - cbn [over] in Ho. apply andb_true_iff in Ho as [? ?]. auto.
  - cbn [over] in Ho. apply andb_true_iff in Ho as [? ?]. auto.
  - rewrite forallb_app. apply andb_true_iff. auto.
Qed.

Lemma M_must Q r l m a :
  M r l m a -> must Q r = true -> existsb Q m = true.
Proof.
  induction 1; intros Ho; try discriminate Ho.
  - cbn [existsb]. now rewrite (over_Cls Q p c Ho H).
  - cbn [must] in Ho. rewrite existsb_app.
    apply orb_true_iff in Ho as [?|?]; apply orb_true_iff; auto.
  - cbn [must] in Ho. apply andb_true_iff in Ho as [? ?]. auto.
  - cbn [must] in Ho. apply andb_true_iff in Ho as [? ?]. auto.
Qed.

(** A pattern that is not [nullable] consumes something. *)
Lemma M_nullable r l m a : M r l m a -> m = [] -> nullable r = true.
Proof.
  induction 1; intros E; try reflexivity; simpl.
  - discriminate E.
  - apply app_eq_nil in E as [? ?]. apply andb_true_iff. auto.
  - apply orb_true_iff. auto.
  - apply orb_true_iff. auto.
Qed.

Lemma fullmatch_spec r text : fullmatch r text = true <-> M r [] text [].
Proof.
  unfold fullmatch. rewrite ReFacts.search_spec. cbn [Seqs]. split.
  - intros (l & m & a & -> & H).
    apply M_Seq in H as (m1 & m2 & -> & H1 & H).
    apply M_Bos in H1 as [-> ->].
    apply M_Seq in H as (m3 & m4 & -> & H3 & H).
    apply M_Eos in H as [-> ->].
    cbn [app] in *. now rewrite !app_nil_r in *.
  - intros H. exists [], text, []. split; [now rewrite app_nil_r|].
    apply M_Seq. exists [], text. repeat split; [constructor|].
    apply M_Seq. exists text, []. rewrite app_nil_r.
    repeat split; [exact H | constructor].
Qed.

(** Invert a match hypothesis along the shape of its pattern. *)
Ltac minv :=
  repeat match goal with
    | H : M (Seqs _) _ _ _ |- _ => cbn [Seqs] in H
    | H : M (Opt _) _ _ _ |- _ => apply M_Opt in H as [H | ->]
    | H : M (Plus (Cls _)) _ _ _ |- _ => apply M_Plus_Cls in H as [? ?]
    | H : M (Star (Chr _)) _ _ _ |- _ => apply M_Star_Chr in H
    | H : M (Star (Cls _)) _ _ _ |- _ => apply M_Star_Cls in H
    | H : M (Chr _) _ _ _ |- _ => apply M_Chr in H as ->
    | H : M (Lit _) _ _ _ |- _ => apply M_Lit in H as ->
    | H : M (Cls _) _ _ _ |- _ => apply M_Cls in H as (? & -> & ?)
    | H : M (Seq _ _) _ _ _ |- _ => apply M_Seq in H as (? & ? & -> & ? & H)
    | H : M Eps _ _ _ |- _ => apply M_Eps in H as ->
    | H : M Bos _ _ _ |- _ => apply M_Bos in H as [? ->]
    | H : M Eos _ _ _ |- _ => apply M_Eos in H as [-> ?]
    | H : M (Alts _ _) _ _ _ |- _ => cbn [Alts] in H
    | H : M (Alt _ _) _ _ _ |- _ => apply M_Alt in H as [H|H]
    end.

End MFacts.

(** ** The patterns of the parser *)

Module PatternFacts.
Import Re MFacts Forms.

Lemma opt_chr_M c x l a : opt_chr c x -> M (Opt (Chr c)) l x a.
Proof.
  intros [-> | ->]; apply M_Opt; [now right | left; now apply M_Chr].
Qed.

Lemma M_REGULAR l m a : M REGULAR l m a <-> regular_token m.
Proof.
  unfold REGULAR, ATGC, digit. split.
  - intros H. minv.
    + exists ["("%char], x0, x, x2, x1, [")"%char].
      unfold opt_chr, digits, bangs, is_base. repeat split; auto.
    + exists ["("%char], x0, x, x2, x1, [].
      unfold opt_chr, digits, bangs, is_base. repeat split; auto.
    + exists [], x0, x, x2, x1, [")"%char].
      unfold opt_chr, digits, bangs, is_base. repeat split; auto.
    + exists [], x0, x, x2, x1, [].
      unfold opt_chr, digits, bangs, is_base. repeat split; auto.
  - intros (lp & b1 & ds & b2 & bs & rp & -> & Hlp & Hb1 & Hds & Hb2 & Hbs & Hrp).
    cbn [Seqs].
    apply M_Seq. exists lp, (b1 :: ds ++ b2 :: bs ++ rp).
    split; [reflexivity|]. split; [now apply opt_chr_M|].
    apply M_Seq. exists [b1], (ds ++ b2 :: bs ++ rp).
    split; [reflexivity|]. split; [now constructor|].
    apply M_Seq. exists ds, (b2 :: bs ++ rp).
    split; [reflexivity|]. split; [now apply M_Plus_Cls|].
    apply M_Seq. exists [b2], (bs ++ rp).
    split; [reflexivity|]. split; [now constructor|].
    apply M_Seq. exists bs, rp.
    split; [reflexivity|]. split; [now apply M_Star_Chr|].
    now apply opt_chr_M.
Qed.

Lemma M_join_Lit ws l m a :
  ws <> [] -> M (join_alternatives (map Lit ws)) l m a <-> In m ws.
Proof.
  destruct ws as [|w ws]; [congruence|]. intros _. simpl.
  rewrite M_Alts, M_Lit, Exists_exists. split.
  - intros [-> | (r & Hin & H)]; [now left|].
    apply in_map_iff in Hin as (w' & <- & Hin).
    apply M_Lit in H as ->. now right.
  - intros [<- | Hin]; [now left|]. right.
    exists (Lit m). split; [now apply in_map | now apply M_Lit].
Qed.

Lemma exceptions_nonempty : exceptions <> [].
Proof.
  intros E. apply (f_equal (@List.length str)) in E.
  vm_compute in E. discriminate E.
Qed.

Lemma M_EXCEPTIONS l m a : M EXCEPTIONS l m a <-> In m exceptions.
Proof. apply M_join_Lit, exceptions_nonempty. Qed.

Lemma M_BRANCH_CONDITION l m a : M BRANCH_CONDITION l m a <-> valid_token m.
Proof.
  unfold BRANCH_CONDITION, valid_token.
  now rewrite M_Alt, M_REGULAR, M_EXCEPTIONS.
Qed.


Lemma BRANCH_CONDITION_over : over not_space BRANCH_CONDITION = true.
Proof. vm_compute. reflexivity. Qed.

Lemma BRANCH_CONDITION_not_nullable : nullable BRANCH_CONDITION = false.
Proof. vm_compute. reflexivity. Qed.

Lemma valid_token_not_space t :
  valid_token t -> forallb not_space t = true.
Proof.
  intros H. apply (M_BRANCH_CONDITION [] t []) in H.
  eapply M_over; [exact H | exact BRANCH_CONDITION_over].
Qed.

Lemma valid_token_nonempty t : valid_token t -> t <> [].
Proof.
  intros H E. apply (M_BRANCH_CONDITION [] t []) in H.
  apply M_nullable in H; [|exact E].
  rewrite BRANCH_CONDITION_not_nullable in H. discriminate H.
Qed.

(** The tail [(?:\s BRANCH_CONDITION)*] after a first token. *)
Lemma M_tail_separated m : forall l t,
  M (Star (Seq space BRANCH_CONDITION)) l m [] -> valid_token t ->
  ws_separated (t ++ m).
Proof.
  intros l t H. remember (Star (Seq space BRANCH_CONDITION)) as r eqn:E.
  remember [] as a eqn:Ea. revert t.
  induction H; try discriminate E; injection E as ->; subst a; intros t Ht.
  - rewrite app_nil_r. now apply sep_one.
  - apply M_Seq in H as (w & u & -> & Hw & Hu).
    apply M_Cls in Hw as (c & -> & Hc).
    apply M_BRANCH_CONDITION in Hu.
    cbn [app].
    apply sep_more; [exact Ht | exact Hc |].
    now apply IHM2.
Qed.

Lemma separated_M s :
  ws_separated s ->
  exists t m, s = t ++ m /\ valid_token t
              /\ forall l, M (Star (Seq space BRANCH_CONDITION)) l m [].
Proof.
  induction 1 as [t Ht | t w rest Ht Hw _ (t' & m & -> & Ht' & Hm)].
  - exists t, []. rewrite app_nil_r. repeat split; [exact Ht | constructor].
  - exists t, (w :: t' ++ m). repeat split; [exact Ht|]. intros l.
    change (w :: t' ++ m) with ((w :: t') ++ m).
    apply MStarS; [|apply Hm].
    apply M_Seq. exists [w], t'. repeat split.
    + now constructor.
    + now apply M_BRANCH_CONDITION.
Qed.

(** [is_branch_conditions] accepts the texts made of valid tokens with one
    white-space character between neighbours. *)
Theorem is_branch_conditions_spec text :
  is_branch_conditions text = true <-> ws_separated text.
Proof.
  unfold is_branch_conditions, BRANCH_CONDITIONS.
  rewrite ReFacts.search_spec. split.
  - intros (l & m & a & -> & H). minv. subst.
    cbn [app] in *. rewrite !app_nil_r in *.
    match goal with
    | Hb : M BRANCH_CONDITION _ _ _, Hs : M (Star _) _ _ _ |- _ =>
        apply M_BRANCH_CONDITION in Hb;
        exact (M_tail_separated Hs Hb)
    end.
  - intros H. apply separated_M in H as (t & m & -> & Ht & Hm).
    exists [], (t ++ m), []. split; [now rewrite app_nil_r|].
    cbn [Seqs].
    apply M_Seq. exists [], (t ++ m). repeat split; [constructor|].
    apply M_Seq. exists t, (m ++ []). split; [now rewrite app_nil_r|]. split.
    + now apply M_BRANCH_CONDITION.
    + apply M_Seq. exists m, []. repeat split; [apply Hm | constructor].
Qed.

End PatternFacts.

(** ** Strings without white space, and last characters *)

Module StrFacts.
Import Forms PatternFacts.

Lemma not_space_false w : is_space w = true -> not_space w = false.
Proof. unfold not_space. now intros ->. Qed.

Lemma not_space_app_ws x w y :
  is_space w = true -> forallb not_space (x ++ w :: y) = true -> False.
Proof.
  intros Hw H. rewrite forallb_app in H. cbn [forallb] in H.
  rewrite (not_space_false w Hw) in H.
  rewrite andb_false_l, andb_false_r in H. discriminate H.
Qed.

(** The first white-space character of a string splits it in one way. *)
Lemma first_ws_unique : forall x x' w w' y y',
  forallb not_space x = true -> forallb not_space x' = true ->
  is_space w = true -> is_space w' = true ->
  x ++ w :: y = x' ++ w' :: y' -> x = x' /\ w = w' /\ y = y'.
Proof.
  induction x as [|c x IH]; intros [|c' x'] w w' y y' Hx Hx' Hw Hw' E;
    cbn [app forallb] in *.
  - injection E as -> ->. auto.
  - injection E as E1 _. subst. apply andb_true_iff in Hx' as [Hc _].
    rewrite not_space_false in Hc by assumption. discriminate Hc.
  - injection E as E1 _. subst. apply andb_true_iff in Hx as [Hc _].
    rewrite not_space_false in Hc by assumption. discriminate Hc.
  - injection E as -> E.
    apply andb_true_iff in Hx as [_ Hx]. apply andb_true_iff in Hx' as [_ Hx'].
    destruct (IH x' w w' y y' Hx Hx' Hw Hw' E) as (-> & -> & ->). auto.
Qed.

Lemma separated_nonempty s : ws_separated s -> s <> [].
Proof.
  intros [t Ht | t w rest _ _ _].
  - now apply valid_token_nonempty.
  - now destruct t.
Qed.


Lemma last_chr_app t c : last_chr (t ++ [c]) = Some c.
Proof. unfold last_chr. now rewrite rev_app_distr. Qed.

Lemma last_chr_In x y :
  y <> [] -> exists c, last_chr (x ++ y) = Some c /\ In c y.
Proof.
  intros Hy. destruct (exists_last Hy) as (y' & c & ->).
  exists c. rewrite app_assoc, last_chr_app. split; [reflexivity|].
  apply in_or_app. right. now left.
Qed.

Lemma last_chr_forallb P x y c :
  y <> [] -> forallb P y = true -> last_chr (x ++ y) = Some c -> P c = true.
Proof.
  intros Hy HP E. destruct (last_chr_In x Hy) as (c' & E' & Hin).
  rewrite E in E'. injection E' as <-.
  rewrite forallb_forall in HP. now apply HP.
Qed.

End StrFacts.

(** ** Regular tokens *)

Module TokenFacts.
Import Re MFacts Forms PatternFacts StrFacts.

Lemma regular_token_fullmatch t :
  fullmatch REGULAR t = true <-> regular_token t.
Proof. now rewrite fullmatch_spec, M_REGULAR. Qed.

Lemma regular_token_valid t : regular_token t -> valid_token t.
Proof. now left. Qed.

Lemma regular_token_accepted t :
  regular_token t -> is_branch_conditions t = true.
Proof.
  intros H. apply is_branch_conditions_spec, sep_one. now left.
Qed.


Lemma digit_not_closing c : is_digit c = true -> closing c = false.
Proof.
  destruct c as [[] [] [] [] [] [] [] []]; vm_compute; congruence.
Qed.

Lemma body_base_or_bang b2 bs :
  is_base b2 = true -> bangs bs -> forallb base_or_bang (b2 :: bs) = true.
Proof.
  unfold bangs, base_or_bang. intros Hb Hbs. cbn [forallb].
  rewrite Hb. cbn [orb andb].
  rewrite forallb_forall in *. intros c Hc. rewrite (Hbs c Hc).
  apply orb_true_r.
Qed.

Lemma body_closing b2 bs rp :
  is_base b2 = true -> bangs bs -> opt_chr ")" rp ->
  forallb closing (b2 :: bs ++ rp) = true.
Proof.
  unfold bangs, closing. intros Hb Hbs Hrp. cbn [forallb].
  rewrite Hb. cbn [orb andb]. rewrite forallb_app.
  apply andb_true_iff. split.
  - rewrite forallb_forall in *. intros c Hc. rewrite (Hbs c Hc).
    now rewrite orb_true_r.
  - destruct Hrp as [-> | ->]; reflexivity.
Qed.

Lemma regular_token_last t :
  regular_token t -> exists c, last_chr t = Some c /\ closing c = true.
Proof.
  intros (lp & b1 & ds & b2 & bs & rp & -> & _ & _ & _ & Hb2 & Hbs & Hrp).
  change (lp ++ b1 :: ds ++ b2 :: bs ++ rp)
    with (lp ++ (b1 :: ds) ++ (b2 :: bs ++ rp)).
  rewrite app_assoc.
  destruct (@last_chr_In (lp ++ b1 :: ds) (b2 :: bs ++ rp)) as (c & E & Hin);
    [discriminate|].
  exists c. split; [exact E|].
  pose proof (@body_closing b2 bs rp Hb2 Hbs Hrp) as H.
  rewrite forallb_forall in H. now apply H.
Qed.

Lemma token_assoc (lp : str) b1 ds b2 bs x :
  lp ++ b1 :: ds ++ b2 :: bs ++ x = (lp ++ b1 :: ds ++ b2 :: bs) ++ x.
Proof.
  rewrite <- app_assoc. cbn [app]. do 2 f_equal.
  now rewrite <- app_assoc.
Qed.

(** Stripping one character off a regular token that is again one. *)
Lemma regular_token_snoc t c :
  regular_token t -> regular_token (t ++ [c]) ->
  (c = "!"%char \/ c = ")"%char) /\ last_chr t <> Some ")"%char.
Proof.
  intros Ht (lp & b1 & ds & b2 & bs & rp & E & _ & _ & Hds & Hb2 & Hbs & Hrp).
  assert (Hbody : forall x, last_chr (lp ++ b1 :: ds ++ b2 :: x) = Some ")"%char ->
                            bangs x -> False).
  { intros x El Hx.
    change (lp ++ b1 :: ds ++ b2 :: x) with (lp ++ (b1 :: ds) ++ (b2 :: x)) in El.
    rewrite app_assoc in El.
    apply (last_chr_forallb base_or_bang) in El;
      [discriminate El | discriminate | now apply body_base_or_bang]. }
  destruct Hrp as [-> | ->].
  - rewrite app_nil_r in E.
    destruct (list_eq_dec ascii_dec bs []) as [-> | Hne].
    + (* the last character would be the second base letter *)
      exfalso.
      change (lp ++ b1 :: ds ++ [b2]) with (lp ++ (b1 :: ds) ++ [b2]) in E.
      rewrite app_assoc in E. apply app_inj_tail in E as [-> _].
      destruct (@regular_token_last _ Ht) as (x & El & Hx).
      destruct Hds as [Hne Hd].
      change (lp ++ b1 :: ds) with (lp ++ [b1] ++ ds) in El.
      rewrite app_assoc in El.
      apply (last_chr_forallb is_digit) in El; [|exact Hne | exact Hd].
      rewrite (@digit_not_closing x El) in Hx. discriminate Hx.
    + destruct (exists_last Hne) as (bs' & x & ->).
      assert (x = "!"%char) as ->.
      { unfold bangs in Hbs. rewrite forallb_app in Hbs.
        apply andb_true_iff in Hbs as [_ Hx]. cbn in Hx.
        rewrite andb_true_r in Hx. symmetry. now apply chr_eqb_eq. }
      rewrite token_assoc in E. apply app_inj_tail in E as [-> ->].
      split; [now left|]. intros El. apply (Hbody bs' El).
      unfold bangs in *. rewrite forallb_app in Hbs.
      now apply andb_true_iff in Hbs as [? _].
  - rewrite token_assoc in E. apply app_inj_tail in E as [-> ->].
    split; [now right|]. intros El. now apply (Hbody bs El).
Qed.

(** A regular token without closing parenthesis takes a [!] or a [)]. *)
Lemma regular_token_extend t c :
  regular_token t -> (c = "!"%char \/ c = ")"%char) ->
  last_chr t <> Some ")"%char -> regular_token (t ++ [c]).
Proof.
  intros (lp & b1 & ds & b2 & bs & rp & -> & Hlp & Hb1 & Hds & Hb2 & Hbs & Hrp)
         Hc Hl.
  destruct Hrp as [-> | ->].
  - rewrite app_nil_r. destruct Hc as [-> | ->].
    + exists lp, b1, ds, b2, (bs ++ ["!"%char]), [].
      split; [now rewrite app_nil_r, token_assoc|].
      repeat split; auto; try (now left); try apply Hds.
      unfold bangs in *. rewrite forallb_app, Hbs. reflexivity.
    + exists lp, b1, ds, b2, bs, [")"%char].
      split; [now rewrite token_assoc|].
      repeat split; auto; try (now right); apply Hds.
  - exfalso. apply Hl. now rewrite token_assoc, last_chr_app.
Qed.

(** No member of the allowlist is a regular token plus one character. *)
Lemma exceptions_not_regular_snoc :
  forallb (fun e => negb (fullmatch REGULAR (removelast e))) exceptions = true.
Proof. vm_compute. reflexivity. Qed.

Lemma regular_token_snoc_not_exception t c :
  regular_token t -> ~ In (t ++ [c]) exceptions.
Proof.
  intros Ht Hin.
  pose proof exceptions_not_regular_snoc as H.
  rewrite forallb_forall in H. specialize (H _ Hin).
  rewrite removelast_last in H.
  apply regular_token_fullmatch in Ht. rewrite Ht in H. discriminate H.
Qed.

Lemma regular_token_not_space t :
  regular_token t -> forallb not_space t = true.
Proof. intros H. apply valid_token_not_space. now left. Qed.

End TokenFacts.

(** ** The condition grammar: claims C6, C7 and C4 *)

Unset Implicit Arguments.

Module GrammarClaims.
Import Re MFacts Forms PatternFacts StrFacts TokenFacts.

Lemma two_ws_rejected t1 t2 w w' :
  valid_token t1 -> valid_token t2 ->
  is_space w = true -> is_space w' = true ->
  ~ ws_separated (t1 ++ w :: w' :: t2).
Proof.
  intros H1 H2 Hw Hw' H.
  inversion H as [t Ht E | t x rest Ht Hx Hrest E].
  - apply valid_token_not_space in Ht.
    apply (@not_space_app_ws t1 w (w' :: t2) Hw Ht).
  - apply first_ws_unique in E as (_ & _ & ->); auto
      using valid_token_not_space.
    inversion Hrest as [u Hu E | u y rest' Hu Hy _ E].
    + apply valid_token_not_space in Hu.
      apply (@not_space_app_ws [] w' t2 Hw' Hu).
    + pose proof (valid_token_nonempty Hu) as Hne.
      apply valid_token_not_space in Hu.
      destruct u as [|c u]; [congruence|].
      injection E as -> _. cbn [forallb] in Hu.
      rewrite (@not_space_false w' Hw') in Hu. discriminate Hu.
Qed.

Lemma join_space_In t u rest :
  In " "%char (Spec.join [" "%char] (t :: u :: rest)).
Proof.
  cbn [Spec.join]. apply in_or_app. right. now left.
Qed.

(** C6 (as stated, refuted): the text [A123G<TAB>T456C] has no space in
    it and is not a single token, so it is not a sequence of valid tokens
    separated by single spaces; [is_branch_conditions] accepts it. *)
Lemma C6_counterexample_tab_separator :
  is_branch_conditions (py "A123G" ++ "009"%char :: py "T456C") = true
  /\ ~ Spec.single_space_separated (py "A123G" ++ "009"%char :: py "T456C").
Proof.
  split; [vm_compute; reflexivity|].
  intros (tokens & Hne & Hall & E).
  destruct tokens as [|t [|u rest]]; [congruence | |].
  - cbn [Spec.join] in E. subst t. apply Forall_inv in Hall.
    apply valid_token_not_space in Hall. vm_compute in Hall.
    discriminate Hall.
  - pose proof (join_space_In t u rest) as Hin. rewrite <- E in Hin.
    vm_compute in Hin. intuition discriminate.
Qed.

(** C6 (amended): [is_branch_conditions text] holds exactly when [text]
    is one or more valid tokens, neighbours separated by exactly one
    white-space character (any character of [\s], not only the space).
    Two valid tokens joined by one space, or by any one white-space
    character, are accepted; joined by two white-space characters they are
    rejected.  ["A123G T456C!"] is accepted and ["A123G  T456C"] is
    not. *)
Theorem C6_branch_conditions_one_whitespace_between_tokens
  (t1 t2 : str) (w w' : ascii)
  (H1 : valid_token t1) (H2 : valid_token t2)
  (Hw : is_space w = true) (Hw' : is_space w' = true) :
  (forall text, is_branch_conditions text = true <-> ws_separated text)
  /\ is_branch_conditions (t1 ++ " "%char :: t2) = true
  /\ is_branch_conditions (t1 ++ w :: t2) = true
  /\ is_branch_conditions (t1 ++ w :: w' :: t2) = false
  /\ is_branch_conditions (py "A123G T456C!") = true
  /\ is_branch_conditions (py "A123G  T456C") = false.
Proof.
  split; [exact is_branch_conditions_spec|].
  split; [|split; [|split; [|split; vm_compute; reflexivity]]].
  - apply is_branch_conditions_spec.
    apply sep_more; [exact H1 | reflexivity | now apply sep_one].
  - apply is_branch_conditions_spec.
    apply sep_more; [exact H1 | exact Hw | now apply sep_one].
  - apply not_true_is_false. intros H.
    apply is_branch_conditions_spec in H.
    now apply (two_ws_rejected t1 t2 w w' H1 H2 Hw Hw').
Qed.

Lemma C6_witness :
  is_branch_conditions (py "A123G" ++ "009"%char :: py "T456C") = true
  /\ is_branch_conditions
       (py "(573.XC)" ++ "010"%char :: " "%char :: py "T456C!") = false.
Proof.
  assert (V1 : valid_token (py "A123G"))
    by (left; apply regular_token_fullmatch; vm_compute; reflexivity).
  assert (V2 : valid_token (py "T456C"))
    by (left; apply regular_token_fullmatch; vm_compute; reflexivity).
  assert (V3 : valid_token (py "(573.XC)"))
    by (right; vm_compute; intuition).
  assert (V4 : valid_token (py "T456C!"))
    by (left; apply regular_token_fullmatch; vm_compute; reflexivity).
  split.
  - apply (@C6_branch_conditions_one_whitespace_between_tokens
             (py "A123G") (py "T456C") "009"%char " "%char V1 V2);
      vm_compute; reflexivity.
  - apply (@C6_branch_conditions_one_whitespace_between_tokens
             (py "(573.XC)") (py "T456C!") "010"%char " "%char V3 V4);
      vm_compute; reflexivity.
Defined.

(** C7 (as stated, refuted): [A123G] is a regular token, and with the extra
    trailing character [!] it is accepted as well. *)
Lemma C7_counterexample_trailing_bang :
  regular_token (py "A123G")
  /\ is_branch_conditions (py "A123G") = true
  /\ is_branch_conditions (py "A123G" ++ ["!"%char]) = true.
Proof.
  split; [apply regular_token_fullmatch|]; vm_compute; auto.
Qed.

(** C7 (amended): [is_branch_conditions] accepts every regular token by
    itself; with one extra trailing character it accepts the string
    exactly when the token has no closing parenthesis and the character
    is [!] or [)] (the string is then a regular token again), and rejects
    it for every other character. *)
Theorem C7_regular_token_and_one_more_character
  (t : str) (c : ascii) (Ht : regular_token t) :
  is_branch_conditions t = true
  /\ (is_branch_conditions (t ++ [c]) = true <->
      (c = "!"%char \/ c = ")"%char) /\ last_chr t <> Some ")"%char).
Proof.
  split; [now apply regular_token_accepted|]. split.
  - intros H. apply is_branch_conditions_spec in H.
    inversion H as [u Hu E | u w rest Hu Hw Hrest E].
    + destruct Hu as [Hu | Hu].
      * now apply regular_token_snoc.
      * now apply regular_token_snoc_not_exception in Hu.
    + exfalso.
      destruct (exists_last (separated_nonempty Hrest)) as (r' & z & ->).
      change (u ++ w :: r' ++ [z]) with (u ++ (w :: r') ++ [z]) in E.
      rewrite app_assoc in E. apply app_inj_tail in E as [<- _].
      apply regular_token_not_space in Ht.
      eapply not_space_app_ws; eauto.
  - intros [Hc Hl]. apply regular_token_accepted.
    now apply regular_token_extend.
Qed.

Lemma C7_witness :
  is_branch_conditions (py "(t16189C!!)") = true
  /\ (is_branch_conditions (py "(t16189C!!)" ++ ["!"%char]) = true <->
      ("!"%char = "!"%char \/ "!"%char = ")"%char)
      /\ last_chr (py "(t16189C!!)") <> Some ")"%char).
Proof.
  apply (@C7_regular_token_and_one_more_character
           (py "(t16189C!!)") "!"%char).
  apply regular_token_fullmatch. vm_compute. reflexivity.
Defined.



Lemma IRREGULAR_over : over not_space IRREGULAR = true.
Proof. vm_compute. reflexivity. Qed.

Lemma IRREGULAR_must : must d_or_dot IRREGULAR = true.
Proof. vm_compute. reflexivity. Qed.

Lemma REGULAR_over : over not_d_or_dot REGULAR = true.
Proof. vm_compute. reflexivity. Qed.

Lemma irregular_M text :
  is_irregular text = true -> exists l a, M IRREGULAR l text a.
Proof.
  unfold is_irregular, IRREGULAR. rewrite ReFacts.search_spec.
  intros (l & m & a & -> & H). exists l, a.
  cbn [Seqs] in *.
  pose proof H as H'.
  apply M_Seq in H' as (m1 & m2 & -> & Hb & H').
  apply M_Bos in Hb as [-> ->].
  assert (a = []) as ->.
  { repeat match goal with
           | X : M (Seq _ _) _ _ _ |- _ =>
               apply M_Seq in X as (? & ? & -> & _ & X)
           end.
    now apply M_Eos in H' as [_ ->]. }
  cbn [app] in *. now rewrite app_nil_r.
Qed.

Lemma irregular_not_regular text :
  is_irregular text = true -> ~ regular_token text.
Proof.
  intros H Hr. apply irregular_M in H as (l & a & H).
  apply (@M_must d_or_dot) in H; [|exact IRREGULAR_must].
  apply (M_REGULAR [] text []) in Hr.
  apply (@M_over not_d_or_dot) in Hr; [|exact REGULAR_over].
  apply existsb_exists in H as (c & Hin & Hc).
  rewrite forallb_forall in Hr. specialize (Hr c Hin).
  unfold not_d_or_dot, d_or_dot in *. rewrite Hc in Hr. discriminate Hr.
Qed.

Lemma irregular_not_space text :
  is_irregular text = true -> forallb not_space text = true.
Proof.
  intros H. apply irregular_M in H as (l & a & H).
  eapply M_over; [exact H | exact IRREGULAR_over].
Qed.



End GrammarClaims.

(** ** The irregular forms: claim C8 *)

Module IrregularClaims.
Import Re MFacts Forms PatternFacts StrFacts.

Lemma opt_one_M p x l a : opt_one p x -> M (Opt (Cls p)) l x a.
Proof.
  intros [-> | (c & -> & Hc)]; apply M_Opt; [now right | left; now constructor].
Qed.

Ltac close_form :=
  repeat match goal with
    | |- exists _, _ => eexists
    | |- _ /\ _ => split
    end;
  try reflexivity; try eassumption; try discriminate;
  try (left; reflexivity);
  try (right; reflexivity);
  try (right; eexists; split; [reflexivity | eassumption]).

Lemma digits_M ds l a : digits ds -> M (Plus digit) l ds a.
Proof. intros [? ?]. now apply M_Plus_Cls. Qed.

Lemma bases_M bs l a : bases bs -> M (Plus ATGC) l bs a.
Proof. intros [? ?]. now apply M_Plus_Cls. Qed.

Lemma M_deletion l m a : M deletion l m a <-> deletion_form m.
Proof.
  unfold deletion. split.
  - unfold ATGC, digit. intros H. minv;
      unfold deletion_form, digits, opt_one, is_base; close_form.
  - intros (b & ds & -> & Hb & Hds). cbn [Seqs].
    apply M_Seq. exists b, (ds ++ ["d"%char]).
    split; [reflexivity|]. split; [now apply opt_one_M|].
    apply M_Seq. exists ds, ["d"%char].
    split; [reflexivity|]. split; [now apply digits_M | now apply M_Chr].
Qed.

Lemma M_insertion l m a : M insertion l m a <-> insertion_form m.
Proof.
  unfold insertion. split.
  - unfold ATGC, digit. intros H. minv;
      match goal with
      | |- insertion_form (?ds ++ _ ++ ?x ++ ?bs ++ ?d) => exists ds, x, bs, d
      end;
      unfold digits, bases, opt_one, opt_chr, is_base; close_form.
  - intros (ds & x & bs & d & -> & Hds & Hx & Hbs & Hd). cbn [Seqs].
    apply M_Seq. exists ds, ("."%char :: x ++ bs ++ d).
    split; [reflexivity|]. split; [now apply digits_M|].
    apply M_Seq. exists ["."%char], (x ++ bs ++ d).
    split; [reflexivity|]. split; [now apply M_Chr|].
    apply M_Seq. exists x, (bs ++ d).
    split; [reflexivity|]. split; [now apply opt_one_M|].
    apply M_Seq. exists bs, d.
    split; [reflexivity|]. split; [now apply bases_M | now apply opt_chr_M].
Qed.

Lemma M_range_deletion l m a : M range_deletion l m a <-> range_form m.
Proof.
  unfold range_deletion. split.
  - unfold digit. intros H. minv; unfold range_form, digits; close_form.
  - intros (d1 & d2 & -> & H1 & H2). cbn [Seqs].
    apply M_Seq. exists d1, ("-"%char :: d2 ++ ["d"%char]).
    split; [reflexivity|]. split; [now apply digits_M|].
    apply M_Seq. exists ["-"%char], (d2 ++ ["d"%char]).
    split; [reflexivity|]. split; [now apply M_Chr|].
    apply M_Seq. exists d2, ["d"%char].
    split; [reflexivity|]. split; [now apply digits_M | now apply M_Chr].
Qed.

Lemma M_irregular_body l m a :
  M (Alts deletion [ insertion; range_deletion; reserved ]) l m a <->
  deletion_form m \/ insertion_form m \/ range_form m \/ m = py "reserved".
Proof.
  cbn [Alts]. rewrite !M_Alt, M_deletion, M_insertion, M_range_deletion.
  unfold reserved. now rewrite M_Lit.
Qed.

Theorem is_irregular_spec text :
  is_irregular text = true <-> irregular_form text.
Proof.
  unfold is_irregular, IRREGULAR. rewrite ReFacts.search_spec. split.
  - intros (l & m & a & -> & H). cbn [Seqs] in H.
    apply M_Seq in H as (m0 & m1 & -> & H0 & H).
    apply M_Bos in H0 as [-> ->].
    apply M_Seq in H as (lp & m2 & -> & Hlp & H).
    apply M_Seq in H as (body & m3 & -> & Hbody & H).
    apply M_Seq in H as (bs & m4 & -> & Hbs & H).
    apply M_Seq in H as (rp & m5 & -> & Hrp & H).
    apply M_Eos in H as [-> ->].
    apply M_irregular_body in Hbody. apply M_Star_Chr in Hbs.
    exists lp, body, bs, rp. cbn [app]. rewrite !app_nil_r.
    repeat split; auto.
    + apply M_Opt in Hlp as [Hlp | ->]; [apply M_Chr in Hlp as ->|];
        [now right | now left].
    + apply M_Opt in Hrp as [Hrp | ->]; [apply M_Chr in Hrp as ->|];
        [now right | now left].
  - intros (lp & body & bs & rp & -> & Hlp & Hbody & Hbs & Hrp).
    exists [], (lp ++ body ++ bs ++ rp), []. split; [now rewrite app_nil_r|].
    cbn [Seqs].
    apply M_Seq. exists [], (lp ++ body ++ bs ++ rp).
    split; [reflexivity|]. split; [constructor|].
    apply M_Seq. exists lp, (body ++ bs ++ rp).
    split; [reflexivity|]. split; [now apply opt_chr_M|].
    apply M_Seq. exists body, (bs ++ rp).
    split; [reflexivity|]. split; [now apply M_irregular_body|].
    apply M_Seq. exists bs, rp.
    split; [reflexivity|]. split; [now apply M_Star_Chr|].
    apply M_Seq. exists rp, []. rewrite app_nil_r.
    split; [reflexivity|]. split; [now apply opt_chr_M | constructor].
Qed.

(** C8 (as stated, refuted): [C459d], the source's own example of a
    deletion, is accepted by [is_irregular]; the grammar of the claim writes
    a deletion as [<pos><base?>d] and does not have it.  So does [44.1C],
    an insertion with a digit where the claim allows [X] only. *)
Lemma C8_counterexample_base_before_position :
  is_irregular (py "C459d") = true
  /\ Spec.is_irregular_spec (py "C459d") = false
  /\ is_irregular (py "44.1C") = true
  /\ Spec.is_irregular_spec (py "44.1C") = false.
Proof. repeat split; vm_compute; reflexivity. Qed.

(** C8 (amended): [is_irregular text] holds exactly when the whole text is
    one of the irregular forms: a deletion [<base?><pos>d], an insertion
    [<pos>.<digit or X>?<base>+d?] with bases in A/T/G/C, a range deletion
    [<pos>-<pos>d] or the word [reserved], with an optional opening
    parenthesis before it, reversion marks and an optional closing
    parenthesis after it.  [960.XC] is irregular and [960.XQ] is not. *)
Theorem C8_is_irregular_forms :
  (forall text, is_irregular text = true <-> irregular_form text)
  /\ is_irregular (py "960.XC") = true
  /\ is_irregular (py "960.XQ") = false.
Proof.
  split; [exact is_irregular_spec | split; vm_compute; reflexivity].
Qed.

Lemma C8_witness : irregular_form (py "(C459d!)").
Proof.
  destruct C8_is_irregular_forms as [H _]. apply H. vm_compute. reflexivity.
Defined.

End IrregularClaims.

(** ** Rows: claims C10, C9, C3 and C2 *)

Module RowClaims.
Import Re Forms PatternFacts Rows.

Lemma is_branch_conditions_nonempty text :
  is_branch_conditions text = true -> text <> [].
Proof.
  intros H E. subst text. vm_compute in H. discriminate H.
Qed.

Lemma split_from_nonempty sep s : forall cur, split_from sep cur s <> [].
Proof.
  induction s as [|c s IH]; intros cur; cbn [split_from]; [discriminate|].
  destruct (chr_eqb c sep); [discriminate | apply IH].
Qed.

Lemma split_length sep text : (length (split sep text) =? 0)%nat = false.
Proof.
  unfold split. pose proof (split_from_nonempty sep text []) as H.
  destruct (split_from sep [] text); [congruence | reflexivity].
Qed.

(** C10: a row of exactly one cell whose normalized text is accepted by
    [is_branch_conditions] makes [extract_example_accessions] index the
    second-to-last cell of a list of length one: [process_tr] ends with an
    [IndexError], and neither a tree row nor a skipped row comes out. *)
Theorem C10_single_condition_cell_raises_IndexError
  (self : parser) (raw : str)
  (H : is_branch_conditions (trim_white_space raw) = true) :
  interpret_tr [raw] = Raise IndexError
  /\ process_tr self [raw] = Raise IndexError.
Proof.
  assert (E : interpret_tr [raw] = Raise IndexError).
  { unfold interpret_tr.
    change (enumerate [raw]) with [(0%Z, raw)].
    cbn [fold_left]. unfold process_td.
    pose proof (is_branch_conditions_nonempty _ H) as Hne.
    destruct (trim_white_space raw) as [|c t] eqn:Et; [congruence|].
    cbn [length Nat.eqb]. rewrite H. cbn [conditions cols app].
    rewrite split_length. reflexivity. }
  split; [exact E|]. unfold process_tr. now rewrite E.
Qed.

Lemma C10_witness :
  interpret_tr [py "  A123G T456C! "] = Raise IndexError
  /\ process_tr init [py "  A123G T456C! "] = Raise IndexError.
Proof.
  apply C10_single_condition_cell_raises_IndexError.
  vm_compute. reflexivity.
Defined.

(** *** The range filter *)

Lemma useful_stays self text :
  in_useful_range self = true -> is_in_useful_range self text = (true, self).
Proof. unfold is_in_useful_range. intros ->. reflexivity. Qed.

Lemma not_title_discarded self text :
  in_useful_range self = false -> is_table_title text = false ->
  is_in_useful_range self text = (false, self).
Proof.
  unfold is_in_useful_range. intros E ->. rewrite E. reflexivity.
Qed.

Lemma title_flips self text :
  in_useful_range self = false -> is_table_title text = true ->
  is_in_useful_range self text = (false, set_useful self).
Proof.
  unfold is_in_useful_range. intros -> ->. reflexivity.
Qed.

Lemma verdicts_useful texts : forall self,
  in_useful_range self = true ->
  verdicts self texts = (repeat true (length texts), self).
Proof.
  induction texts as [|x texts IH]; intros self H; [reflexivity|].
  cbn [verdicts]. rewrite useful_stays by exact H. now rewrite IH.
Qed.

Lemma verdicts_before pre rest : forall self,
  in_useful_range self = false ->
  (forall x, In x pre -> is_table_title x = false) ->
  verdicts self (pre ++ rest) =
  (repeat false (length pre) ++ fst (verdicts self rest),
   snd (verdicts self rest)).
Proof.
  induction pre as [|x pre IH]; intros self H Hpre.
  - cbn [app length repeat]. now destruct (verdicts self rest).
  - cbn [app verdicts]. rewrite not_title_discarded; auto using in_eq.
    rewrite IH; auto using in_cons.
Qed.

Lemma grow_tree_useful self hap cs ex d self' :
  grow_tree self hap cs ex d = Ok self' ->
  in_useful_range self' = in_useful_range self.
Proof.
  unfold grow_tree, bind. intros H.
  destruct get_deep_hash as [[node put]|]; [|discriminate H].
  destruct setitem; [|discriminate H].
  destruct (put a); try discriminate H. now injection H as <-.
Qed.

Lemma process_tr_useful self tds self' :
  process_tr self tds = Ok self' ->
  in_useful_range self' = in_useful_range self.
Proof.
  unfold process_tr, bind. intros H.
  destruct interpret_tr as [[row|]|]; try discriminate H.
  - now apply grow_tree_useful in H.
  - now injection H as <-.
Qed.

Lemma process_table_useful table : forall self,
  in_useful_range self = true ->
  process_table self table = process_rows self (map find_all_td table).
Proof.
  induction table as [|tr table IH]; intros self H; [reflexivity|].
  cbn [process_table map process_rows]. rewrite useful_stays by exact H.
  cbn [negb]. unfold bind.
  destruct (process_tr self (find_all_td tr)) as [self2|] eqn:E; [|reflexivity].
  apply IH. apply process_tr_useful in E. congruence.
Qed.

Lemma process_table_before pre rest : forall self,
  in_useful_range self = false ->
  (forall r, In r pre -> is_table_title (get_text r) = false) ->
  process_table self (pre ++ rest) = process_table self rest.
Proof.
  induction pre as [|r pre IH]; intros self H Hpre; [reflexivity|].
  cbn [app process_table]. rewrite not_title_discarded; auto using in_eq.
  cbn [negb]. apply IH; auto using in_cons.
Qed.

Lemma process_rows_useful rows : forall self self',
  process_rows self rows = Ok self' ->
  in_useful_range self' = in_useful_range self.
Proof.
  induction rows as [|tds rows IH]; intros self self' H.
  - now injection H as <-.
  - cbn [process_rows] in H. unfold bind in H.
    destruct (process_tr self tds) as [self1|] eqn:E; [|discriminate H].
    apply IH in H. apply process_tr_useful in E. congruence.
Qed.

Lemma process_rows_app a b : forall self,
  process_rows self (a ++ b) =
  (self1 <- process_rows self a ;; process_rows self1 b).
Proof.
  induction a as [|tds a IH]; intros self; [reflexivity|].
  cbn [app process_rows]. unfold bind.
  destruct (process_tr self tds); [apply IH | reflexivity].
Qed.

Lemma parse_useful tables : forall self,
  in_useful_range self = true ->
  parse self tables = process_rows self (map find_all_td (List.concat tables)).
Proof.
  induction tables as [|table tables IH]; intros self H; [reflexivity|].
  cbn [parse List.concat]. rewrite map_app, process_rows_app.
  rewrite process_table_useful by exact H. unfold bind.
  destruct (process_rows self (map find_all_td table)) as [self1|] eqn:E;
    [|reflexivity].
  apply IH. apply process_rows_useful in E. congruence.
Qed.

Lemma parse_before pres rest : forall self,
  in_useful_range self = false ->
  (forall table r, In table pres -> In r table ->
                   is_table_title (get_text r) = false) ->
  parse self (pres ++ rest) = parse self rest.
Proof.
  induction pres as [|table pres IH]; intros self H Hpres; [reflexivity|].
  cbn [app parse].
  rewrite <- (app_nil_r table), process_table_before;
    [| exact H | intros r Hr; apply (Hpres table r); [now left | exact Hr]].
  cbn [process_table bind]. apply IH; [exact H|].
  intros t r Ht Hr. apply (Hpres t r); [now right | exact Hr].
Qed.

(** C9: over a stream of rows, every row before the first row with the
    title marker is rejected, that row is rejected too, and every row after
    it is accepted whatever its content, in this table and in the tables
    that follow: once set, the flag stays.  For the loops of [parse] and
    [process_table]: whatever tables without the marker come first, and
    whatever rows without it come first in the table with the marker, the
    rows handed to [process_tr] are the rows after the first row with the
    marker, all of them, to the end of the document. *)
Theorem C9_range_filter_one_way
  (self : parser) (pres : list (list tr_t)) (pre post : list tr_t) (t : tr_t)
  (tables : list (list tr_t))
  (H0 : in_useful_range self = false)
  (Hpres : forall table r, In table pres -> In r table ->
                           is_table_title (get_text r) = false)
  (Hpre : forall r, In r pre -> is_table_title (get_text r) = false)
  (Ht : is_table_title (get_text t) = true) :
  verdicts self (map get_text (pre ++ t :: post)) =
    (repeat false (length pre) ++ false :: repeat true (length post),
     set_useful self)
  /\ verdicts self
       (map get_text (List.concat pres ++ (pre ++ t :: post)
                                       ++ List.concat tables)) =
     (repeat false (length (List.concat pres) + length pre)
        ++ false
        :: repeat true (length post + length (List.concat tables)),
      set_useful self)
  /\ process_table self (pre ++ t :: post) =
     process_rows (set_useful self) (map find_all_td post)
  /\ parse self ((pre ++ t :: post) :: tables) =
     process_rows (set_useful self) (map find_all_td (post ++ List.concat tables))
  /\ parse self (pres ++ (pre ++ t :: post) :: tables) =
     process_rows (set_useful self) (map find_all_td (post ++ List.concat tables))
  /\ (forall self' text, in_useful_range self' = true ->
        is_in_useful_range self' text = (true, self')).
Proof.
  assert (Ep : process_table self (pre ++ t :: post) =
               process_rows (set_useful self) (map find_all_td post)).
  { rewrite process_table_before by assumption.
    cbn [process_table]. rewrite title_flips by assumption. cbn [negb].
    now apply process_table_useful. }
  assert (Et : parse self ((pre ++ t :: post) :: tables) =
               process_rows (set_useful self)
                 (map find_all_td (post ++ List.concat tables))).
  { cbn [parse]. rewrite Ep, map_app, process_rows_app. unfold bind.
    destruct (process_rows (set_useful self) (map find_all_td post))
      as [self1|] eqn:E; [|reflexivity].
    apply parse_useful. now apply process_rows_useful in E. }
  assert (Ev : forall before after,
             (forall r, In r before -> is_table_title (get_text r) = false) ->
             verdicts self (map get_text (before ++ t :: after)) =
             (repeat false (length before)
                ++ false :: repeat true (length after),
              set_useful self)).
  { intros before after Hb. rewrite map_app. cbn [map].
    rewrite verdicts_before; [|exact H0|].
    - cbn [verdicts]. rewrite title_flips by assumption.
      rewrite verdicts_useful by reflexivity.
      cbn [fst snd]. now rewrite !length_map.
    - intros x Hx. apply in_map_iff in Hx as (r & <- & Hr). now apply Hb. }
  split; [now apply Ev|].
  split.
  { replace (List.concat pres ++ (pre ++ t :: post) ++ List.concat tables)
      with ((List.concat pres ++ pre) ++ t :: post ++ List.concat tables)
      by (rewrite <- !app_assoc; reflexivity).
    rewrite Ev, !length_app; [reflexivity|].
    intros r Hr. apply in_app_or in Hr as [Hr | Hr]; [|now apply Hpre].
    apply in_concat in Hr as (table & Htab & Hr). now apply (Hpres table). }
  split; [exact Ep|]. split; [exact Et|]. split; [|exact useful_stays].
  rewrite parse_before by assumption. exact Et.
Qed.

Lemma C9_witness :
  verdicts init
    (map get_text
       ([mkTr (py "H A123G") [py "H"; py "A123G"; py ""; py ""]]
          ++ mkTr (py "mt-MRCA") [py "mt-MRCA"]
          :: [mkTr (py "mt-MRCA again") []; mkTr (py "x") []]))
  = ([false; false; true; true], set_useful init)
  /\ parse init
       ([[mkTr (py "preamble") [py "preamble"]]; []]
          ++ ([mkTr (py "H A123G") [py "H"; py "A123G"; py ""; py ""]]
                ++ mkTr (py "mt-MRCA") [py "mt-MRCA"]
                :: [mkTr (py "mt-MRCA again") []; mkTr (py "x") []])
          :: [[mkTr (py "y") [py "y"]]])
     = process_rows (set_useful init) [[]; []; [py "y"]].
Proof.
  pose proof (C9_range_filter_one_way init
           [[mkTr (py "preamble") [py "preamble"]]; []]
           [mkTr (py "H A123G") [py "H"; py "A123G"; py ""; py ""]]
           [mkTr (py "mt-MRCA again") []; mkTr (py "x") []]
           (mkTr (py "mt-MRCA") [py "mt-MRCA"])
           [[mkTr (py "y") [py "y"]]]) as H.
  destruct H as (Hv & _ & _ & _ & Hp & _).
  - reflexivity.
  - intros table r [<- | [<- | []]]; [|intros []].
    intros [<- | []]. vm_compute. reflexivity.
  - intros r [<- | []]. vm_compute. reflexivity.
  - vm_compute. reflexivity.
  - split; [exact Hv | exact Hp].
Defined.

(** *** Resolving the haplogroup *)

Lemma truthy_nonempty c : truthy (VStr c) = nonempty c.
Proof. now destruct c. Qed.

Lemma detect_loop_named ex : forall candidates haplogroup,
  haplogroup <> [] ->
  detect_loop candidates ex haplogroup =
  match remaining candidates ex with
  | [] => Ok haplogroup
  | _ :: _ => Raise NameError
  end.
Proof.
  induction candidates as [|c cs IH]; intros hap Hne; [reflexivity|].
  cbn [detect_loop remaining filter].
  destruct (existsb (str_eqb c) ex); cbn [negb]; [now apply IH|].
  destruct hap; [congruence | reflexivity].
Qed.

Lemma detect_loop_unnamed ex : forall candidates,
  Forall (fun c => c <> []) candidates ->
  detect_loop candidates ex [] =
  match remaining candidates ex with
  | [] => Ok []
  | [c] => Ok c
  | _ :: _ :: _ => Raise NameError
  end.
Proof.
  induction candidates as [|c cs IH]; intros Hall; [reflexivity|].
  cbn [detect_loop remaining filter].
  destruct (existsb (str_eqb c) ex); cbn [negb].
  - apply IH. now apply Forall_inv_tail in Hall.
  - cbn [truthy]. rewrite detect_loop_named by now apply Forall_inv in Hall.
    fold (remaining cs ex). now destruct (remaining cs ex).
Qed.

Lemma remaining_nonempty candidates ex c :
  Forall (fun c => c <> []) candidates ->
  In c (remaining candidates ex) -> c <> [].
Proof.
  intros Hall Hin. apply filter_In in Hin as [Hin _].
  rewrite Forall_forall in Hall. now apply Hall.
Qed.

(** C3 (what the code does): with no candidate left after discarding the
    example accessions the haplogroup is the blank-branch sentinel, with
    one it is that candidate; with more than one, evaluating
    [raise DuplicateDetectionError] raises [NameError], since the name is
    bound in the class body only: the row
    [["", "A123G", "H1", "H2", "", ""]] ends in [NameError] and not in
    [DuplicateDetectionError]. *)
Theorem C3_detect_haplogroup_raises_NameError
  (candidates example_accessions : list str)
  (Hne : Forall (fun c => c <> []) candidates) :
  match remaining candidates example_accessions with
  | [] => detect_haplogroup candidates example_accessions
          = Ok BLANK_BRANCH_NAME
  | [c] => detect_haplogroup candidates example_accessions = Ok c
  | _ :: _ :: _ => detect_haplogroup candidates example_accessions
                   = Raise NameError
  end
  /\ interpret_tr (map py [""; "A123G"; "H1"; "H2"; ""; ""]%string)
     = Raise NameError
  /\ interpret_tr (map py [""; "A123G"; "H1"; "H2"; ""; ""]%string)
     <> Raise DuplicateDetectionError.
Proof.
  split; [|split; [vm_compute; reflexivity | vm_compute; discriminate]].
  unfold detect_haplogroup. rewrite detect_loop_unnamed by exact Hne.
  pose proof (remaining_nonempty candidates example_accessions) as Hr.
  destruct (remaining candidates example_accessions) as [|c [|c' r]];
    try reflexivity.
  cbn [bind]. specialize (Hr c Hne (or_introl eq_refl)).
  destruct c; [congruence | reflexivity].
Qed.

Lemma C3_witness :
  detect_haplogroup [py "H1"; py "AB123456"; py "H2"] [py "AB123456"]
  = Raise NameError.
Proof.
  pose proof (C3_detect_haplogroup_raises_NameError
                [py "H1"; py "AB123456"; py "H2"] [py "AB123456"]) as H.
  destruct H as [H _].
  - repeat constructor; discriminate.
  - exact H.
Defined.

(** *** Interpreting a row *)

Lemma enumerate_from_0 l : enumerate l = enumerate_from 0 l.
Proof.
  unfold enumerate, enumerate_from, range. now rewrite Nat2Z.id.
Qed.

Lemma enumerate_from_cons k x l :
  enumerate_from k (x :: l) = (Z.of_nat k, x) :: enumerate_from (S k) l.
Proof. reflexivity. Qed.

Lemma enumerate_from_app l1 : forall k l2,
  enumerate_from k (l1 ++ l2) =
  enumerate_from k l1 ++ enumerate_from (k + length l1) l2.
Proof.
  induction l1 as [|x l1 IH]; intros k l2.
  - cbn [app length]. now rewrite Nat.add_0_r.
  - cbn [app length]. rewrite !enumerate_from_cons, IH.
    cbn [app]. now rewrite Nat.add_succ_r.
Qed.

Lemma process_td_cols acc i raw :
  cols (process_td acc (i, raw)) = cols acc ++ [trim_white_space raw].
Proof.
  unfold process_td.
  destruct (length (trim_white_space raw) =? 0)%nat; [reflexivity|].
  now destruct (is_branch_conditions (trim_white_space raw)).
Qed.

Lemma process_td_candidates acc i raw :
  haplogroup_candidates (process_td acc (i, raw)) =
  haplogroup_candidates acc ++ filter is_candidate [trim_white_space raw].
Proof.
  unfold process_td, is_candidate, nonempty. cbn [filter].
  destruct (length (trim_white_space raw) =? 0)%nat; cbn [negb andb].
  - now rewrite app_nil_r.
  - destruct (is_branch_conditions (trim_white_space raw)); cbn [negb];
      [now rewrite app_nil_r | reflexivity].
Qed.

Lemma process_td_other acc i raw :
  is_condition_cell raw = false ->
  conditions (process_td acc (i, raw)) = conditions acc
  /\ depth (process_td acc (i, raw)) = depth acc.
Proof.
  unfold process_td, is_condition_cell, nonempty.
  destruct (length (trim_white_space raw) =? 0)%nat; cbn [negb andb];
    [now split|].
  intros ->. now split.
Qed.

Lemma process_td_condition acc i raw :
  is_condition_cell raw = true ->
  conditions (process_td acc (i, raw)) = split " " (trim_white_space raw)
  /\ depth (process_td acc (i, raw)) = (i - 1)%Z.
Proof.
  unfold process_td, is_condition_cell, nonempty.
  destruct (length (trim_white_space raw) =? 0)%nat; cbn [negb andb];
    [discriminate|].
  intros ->. now split.
Qed.

Lemma fold_cols l : forall k acc,
  cols (fold_left process_td (enumerate_from k l) acc) =
  cols acc ++ map trim_white_space l.
Proof.
  induction l as [|x l IH]; intros k acc.
  - cbn. now rewrite app_nil_r.
  - rewrite enumerate_from_cons. cbn [fold_left map].
    rewrite IH, process_td_cols, <- app_assoc. reflexivity.
Qed.

Lemma fold_candidates l : forall k acc,
  haplogroup_candidates (fold_left process_td (enumerate_from k l) acc) =
  haplogroup_candidates acc ++ filter is_candidate (map trim_white_space l).
Proof.
  induction l as [|x l IH]; intros k acc.
  - cbn. now rewrite app_nil_r.
  - rewrite enumerate_from_cons. cbn [fold_left map].
    rewrite IH, process_td_candidates, <- app_assoc.
    f_equal. cbn [filter]. now destruct (is_candidate (trim_white_space x)).
Qed.

Lemma fold_others l : forall k acc,
  (forall x, In x l -> is_condition_cell x = false) ->
  conditions (fold_left process_td (enumerate_from k l) acc) = conditions acc
  /\ depth (fold_left process_td (enumerate_from k l) acc) = depth acc.
Proof.
  induction l as [|x l IH]; intros k acc H; [now split|].
  rewrite enumerate_from_cons. cbn [fold_left].
  destruct (IH (S k) (process_td acc (Z.of_nat k, x))) as [-> ->];
    auto using in_cons.
  apply process_td_other. apply H. now left.
Qed.

Lemma extract_last_two front a b :
  extract_example_accessions (front ++ [a; b]) = Ok (filter nonempty [a; b]).
Proof.
  unfold extract_example_accessions. cbn [comprehension].
  assert (Ea : index (front ++ [a; b]) (-2) = Ok a).
  { unfold index. rewrite length_app. cbn [length].
    replace (-2 <? 0)%Z with true by reflexivity.
    replace (-2 + Z.of_nat (length front + 2))%Z
      with (Z.of_nat (length front)) by lia.
    replace (Z.of_nat (length front) <? 0)%Z with false
      by (symmetry; apply Z.ltb_ge; lia).
    replace (Z.of_nat (length front + 2) <=? Z.of_nat (length front))%Z
      with false by (symmetry; apply Z.leb_gt; lia).
    cbn [orb]. rewrite Nat2Z.id, nth_error_app2 by lia.
    now rewrite Nat.sub_diag. }
  assert (Eb : index (front ++ [a; b]) (-1) = Ok b).
  { unfold index. rewrite length_app. cbn [length].
    replace (-1 <? 0)%Z with true by reflexivity.
    replace (-1 + Z.of_nat (length front + 2))%Z
      with (Z.of_nat (S (length front))) by lia.
    replace (Z.of_nat (S (length front)) <? 0)%Z with false
      by (symmetry; apply Z.ltb_ge; lia).
    replace (Z.of_nat (length front + 2) <=? Z.of_nat (S (length front)))%Z
      with false by (symmetry; apply Z.leb_gt; lia).
    cbn [orb]. rewrite Nat2Z.id, nth_error_app2 by lia.
    replace (S (length front) - length front) with 1 by lia. reflexivity. }
  rewrite Ea, Eb. cbn [bind filter]. now rewrite !truthy_nonempty.
Qed.

(** [interpret_tr] on a row whose last condition cell is [raw]. *)
Lemma interpret_tr_condition pre raw post :
  is_condition_cell raw = true ->
  (forall x, In x post -> is_condition_cell x = false) ->
  interpret_tr (pre ++ raw :: post) =
  (example_accessions <-
     extract_example_accessions
       (map trim_white_space (pre ++ raw :: post)) ;;
   haplogroup <-
     detect_haplogroup
       (filter is_candidate (map trim_white_space (pre ++ raw :: post)))
       example_accessions ;;
   Ok (Some (mkRow haplogroup (split " " (trim_white_space raw))
                   example_accessions (Z.of_nat (length pre) - 1)))).
Proof.
  intros Hraw Hpost. unfold interpret_tr.
  rewrite enumerate_from_0, fold_cols, fold_candidates. cbn [cols haplogroup_candidates app].
  rewrite enumerate_from_app, fold_left_app, enumerate_from_cons.
  cbn [fold_left Nat.add].
  destruct (fold_others post (S (length pre))
              (process_td (fold_left process_td (enumerate_from 0 pre)
                                     (mkLocals [] [] 0 []))
                          (Z.of_nat (length pre), raw)) Hpost) as [-> ->].
  destruct (process_td_condition
              (fold_left process_td (enumerate_from 0 pre) (mkLocals [] [] 0 []))
              (Z.of_nat (length pre)) raw Hraw) as [-> ->].
  now rewrite split_length.
Qed.

(** C2 (as stated, refuted): the row does not yield depth 1, haplogroup
    [H1] and the one accession [AB123456]. *)
Lemma C2_counterexample_row_example :
  interpret_tr (map py [""; "A123G"; ""; "H1"; "AB123456"]%string)
  <> Ok (Some (mkRow (py "H1") [py "A123G"] [py "AB123456"] 1)).
Proof. vm_compute. discriminate. Qed.

(** C2 (amended): interpreting the row with cells
    [["", "A123G", "", "H1", "AB123456"]] yields depth 0, the blank-branch
    sentinel as haplogroup, conditions [["A123G"]] and the example
    accessions [["H1", "AB123456"]]: the example accessions are the
    non-empty ones among the last two cells, in their order, and the depth
    is the column index of the condition cell minus 1. *)
Theorem C2_row_interpretation
  (pre post front : list str) (raw a b : str)
  (Hraw : is_condition_cell raw = true)
  (Hpost : forall x, In x post -> is_condition_cell x = false)
  (Hlast : map trim_white_space (pre ++ raw :: post) = front ++ [a; b]) :
  interpret_tr (map py [""; "A123G"; ""; "H1"; "AB123456"]%string)
  = Ok (Some (mkRow BLANK_BRANCH_NAME [py "A123G"]
                    [py "H1"; py "AB123456"] 0))
  /\ extract_example_accessions (front ++ [a; b])
     = Ok (filter nonempty [a; b])
  /\ interpret_tr (pre ++ raw :: post) =
     (haplogroup <-
        detect_haplogroup
          (filter is_candidate (map trim_white_space (pre ++ raw :: post)))
          (filter nonempty [a; b]) ;;
      Ok (Some (mkRow haplogroup (split " " (trim_white_space raw))
                      (filter nonempty [a; b])
                      (Z.of_nat (length pre) - 1)))).
Proof.
  split; [vm_compute; reflexivity|]. split; [apply extract_last_two|].
  rewrite interpret_tr_condition by assumption.
  rewrite Hlast, extract_last_two. reflexivity.
Qed.

Lemma C2_witness :
  interpret_tr (map py [""; "  C150T   T152C! "; ""; "H1"; ""; "AB123456"]%string)
  = (haplogroup <-
       detect_haplogroup
         (filter is_candidate
            (map trim_white_space
               (map py [""; "  C150T   T152C! "; ""; "H1"; ""; "AB123456"]%string)))
         (filter nonempty [py ""; py "AB123456"]) ;;
     Ok (Some (mkRow haplogroup
                     (split " " (trim_white_space (py "  C150T   T152C! ")))
                     (filter nonempty [py ""; py "AB123456"])
                     (Z.of_nat (length [py ""]) - 1)))).
Proof.
  apply (C2_row_interpretation [py ""] (map py [""; "H1"; ""; "AB123456"]%string)
           (map py [""; "C150T T152C!"; ""; "H1"]%string)
           (py "  C150T   T152C! ") (py "") (py "AB123456")).
  - vm_compute. reflexivity.
  - intros x Hx. cbn [map In] in Hx.
    repeat (destruct Hx as [<- | Hx]; [vm_compute; reflexivity|]).
    destruct Hx.
  - vm_compute. reflexivity.
Defined.

End RowClaims.

(** ** The tree accumulator: claim C1 *)

Module TreeClaims.
Import Trees.

Ltac conj := repeat match goal with |- _ /\ _ => split end.

Lemma get_set_same (d : dict) k v : get (set d k v) k = Some v.
Proof.
  unfold get, set. induction d as [|[k' v'] d IH]; cbn [dict_set dict_get].
  - now rewrite str_eqb_refl.
  - destruct (str_eqb k k') eqn:E; cbn [dict_get]; rewrite E; auto.
Qed.

Lemma get_set_other (d : dict) k k' v :
  k <> k' -> get (set d k v) k' = get d k'.
Proof.
  intros Hne. unfold get, set.
  induction d as [|[k0 v0] d IH]; cbn [dict_set dict_get].
  - destruct (str_eqb k' k) eqn:E; [|reflexivity].
    apply str_eqb_eq in E. congruence.
  - destruct (str_eqb k k0) eqn:E; cbn [dict_get].
    + apply str_eqb_eq in E. subst k0.
      destruct (str_eqb k' k) eqn:E'; [|reflexivity].
      apply str_eqb_eq in E'. congruence.
    + now rewrite IH.
Qed.

Lemma get_In (d : dict) k v : get d k = Some v -> In (k, v) d.
Proof.
  unfold get. induction d as [|[k' v'] d IH]; cbn [dict_get]; [discriminate|].
  destruct (str_eqb k k') eqn:E.
  - apply str_eqb_eq in E. intros [= ->]. subst. now left.
  - intros H. right. auto.
Qed.

Lemma In_set (d : dict) k v k' v' :
  In (k', v') (set d k v) -> (k' = k /\ v' = v) \/ In (k', v') d.
Proof.
  unfold set. induction d as [|[k0 v0] d IH]; cbn [dict_set].
  - intros [[= <- <-] | []]. now left.
  - destruct (str_eqb k k0) eqn:E.
    + apply str_eqb_eq in E. subst k0. intros [[= <- <-] | H].
      * now left.
      * right. now right.
    + intros [H | H]; [right; now left|].
      destruct (IH H) as [? | ?]; [now left | right; now right].
Qed.

Lemma mem_get (d : dict) k : mem k d = false -> get d k = None.
Proof. unfold mem, get, dict_mem. now destruct dict_get. Qed.

Lemma raw_node_child d k v :
  raw_node (VDict d) -> get d k = Some v -> k <> SELF_BRANCH_NAME ->
  raw_node v.
Proof.
  intros H Hg Hk. inversion H as [d' Hd E]. subst.
  eapply Hd; [now apply get_In; eassumption | exact Hk].
Qed.

Lemma raw_node_set d k v :
  raw_node (VDict d) -> (k <> SELF_BRANCH_NAME -> raw_node v) ->
  raw_node (VDict (set d k v)).
Proof.
  intros H Hv. inversion H as [d' Hd E]. subst. constructor.
  intros k' v' Hin Hk'. apply In_set in Hin as [[-> ->] | Hin]; eauto.
Qed.

Lemma raw_node_empty : raw_node (VDict []).
Proof. constructor. intros k v []. Qed.

Lemma diverges_nil_r p : ~ diverges p [].
Proof. intros H. inversion H. Qed.

Lemma walk_empty k r : walk (VDict []) (k :: r) = None.
Proof. reflexivity. Qed.

Lemma ensured_get d key :
  raw_node (VDict d) -> key <> SELF_BRANCH_NAME ->
  exists c, get (ensured d key) key = Some (VDict c)
            /\ raw_node (VDict c)
            /\ (forall p, p <> [] -> walk (VDict c) p = walk (VDict d) (key :: p)).
Proof.
  intros Hr Hk. unfold ensured. destruct (mem key d) eqn:Em; cbn [negb].
  - unfold mem, dict_mem in Em. fold (get d key) in Em.
    destruct (get d key) as [v|] eqn:Eg; [|discriminate Em].
    pose proof (raw_node_child d key v Hr Eg Hk) as Hv.
    inversion Hv as [c Hc E]. subst v. exists c.
    conj; [reflexivity | exact Hv |]. intros p _. cbn [walk]. now rewrite Eg.
  - exists []. rewrite get_set_same.
    conj; [reflexivity | apply raw_node_empty |].
    intros [|k r] Hp; [congruence|]. cbn [walk].
    now rewrite (mem_get d key Em).
Qed.

Lemma ensured_other d key k : k <> key -> get (ensured d key) k = get d k.
Proof.
  intros Hne. unfold ensured. destruct (mem key d); cbn [negb]; [reflexivity|].
  apply get_set_other. congruence.
Qed.

Lemma ensured_raw d key : raw_node (VDict d) -> raw_node (VDict (ensured d key)).
Proof.
  intros H. unfold ensured. destruct (mem key d); cbn [negb]; [exact H|].
  apply raw_node_set; [exact H | intros _; apply raw_node_empty].
Qed.

(** What [get_deep_hash] hands back: the node at the end of the path, and a
    write-back that changes nothing off the path. *)
Lemma get_deep_hash_spec arr : forall itr keys d,
  queue_keys arr itr keys -> keys <> [] ->
  Forall (fun k => k <> SELF_BRANCH_NAME) keys ->
  raw_node (VDict d) ->
  exists node put,
    get_deep_hash (VDict d) arr itr = Ok (VDict node, put)
    /\ raw_node (VDict node)
    /\ (forall p, p <> [] -> walk (VDict node) p = walk (VDict d) (keys ++ p))
    /\ (forall n, exists d', put n = VDict d')
    /\ (forall n, walk (put n) keys = Some n)
    /\ (forall n p, diverges p keys -> walk (put n) p = walk (VDict d) p)
    /\ (forall n, raw_node n -> raw_node (put n)).
Proof.
  intros itr keys d H. revert d.
  induction H as [|idx key itr keys Hkey Hrest IH]; intros d Hne Hself Hraw;
    [congruence|].
  apply Forall_cons_iff in Hself as [Hk Hself].
  destruct (ensured_get d key Hraw Hk) as (c & Eg & Hc & Hwalk).
  cbn [get_deep_hash]. rewrite Hkey. fold (ensured d key). rewrite Eg.
  assert (Hhere : forall n k p, k <> key ->
            walk (VDict (set (ensured d key) key n)) (k :: p)
            = walk (VDict d) (k :: p)).
  { intros n k p Hkk. cbn [walk].
    rewrite get_set_other by congruence. now rewrite ensured_other. }
  inversion Hrest as [E1 E2 | idx' key' itr' keys' Hkey' Hrest' E1 E2].
  - (* the last key of the path *)
    subst. exists c, (fun n => VDict (set (ensured d key) key n)).
    conj; auto.
    + intros n. eauto.
    + intros n. cbn [walk]. now rewrite get_set_same.
    + intros n p Hd. inversion Hd as [k k' p' q Hkk | k p' q Hd']; subst.
      * now apply Hhere.
      * now apply diverges_nil_r in Hd'.
    + intros n Hn. apply raw_node_set; [now apply ensured_raw | auto].
  - subst itr keys.
    destruct (IH c) as (node & put & Eh & Hnode & Hw & Hd' & Hput & Hdiv & Hr);
      [discriminate | exact Hself | exact Hc |].
    rewrite Eh. cbn [bind].
    exists node, (fun n => VDict (set (ensured d key) key (put n))).
    conj; auto.
    + intros p Hp. rewrite Hw by exact Hp. cbn [app].
      apply Hwalk. discriminate.
    + intros n. eauto.
    + intros n. cbn [walk]. rewrite get_set_same. apply Hput.
    + intros n p Hd. inversion Hd as [k k' p' q Hkk | k p' q Hdl]; subst.
      * now apply Hhere.
      * cbn [walk]. rewrite get_set_same, Hdiv by exact Hdl.
        destruct p' as [|k r]; [inversion Hdl|].
        rewrite Hwalk by discriminate. reflexivity.
    + intros n Hn. apply raw_node_set; [now apply ensured_raw | auto].
Qed.

Lemma diverges_snoc keys k p :
  diverges p (keys ++ [k]) ->
  diverges p keys \/ exists k' r, p = keys ++ k' :: r /\ k' <> k.
Proof.
  revert p. induction keys as [|key keys IH]; intros p H.
  - cbn [app] in H. inversion H as [k1 k2 p' q Hne | k1 p' q Hd]; subst.
    + right. exists k1, p'. split; [reflexivity | exact Hne].
    + now apply diverges_nil_r in Hd.
  - cbn [app] in H. inversion H as [k1 k2 p' q Hne | k1 p' q Hd]; subst.
    + left. now constructor.
    + destruct (IH _ Hd) as [Hl | (k' & r & -> & Hne)].
      * left. now constructor.
      * right. exists k', r. split; [reflexivity | exact Hne].
Qed.

Lemma range_succ depth :
  (0 <= depth)%Z -> range (depth + 1) <> [].
Proof.
  intros H. unfold range.
  destruct (Z.to_nat (depth + 1)) eqn:E; [lia | discriminate].
Qed.

Lemma walk_app v p : forall q,
  walk v (p ++ q) = match walk v p with
                    | Some v' => walk v' q
                    | None => None
                    end.
Proof.
  revert v. induction p as [|k p IH]; intros v q; [reflexivity|].
  cbn [app walk]. destruct v; try reflexivity.
  destruct (get d k); [apply IH | reflexivity].
Qed.

Section Insertion.
Variables (self : parser) (haplogroup : str)
          (conditions example_accessions : list str) (depth : Z)
          (keys : list str).

Let queue' : queue_t := dict_set Z.eqb (queue self) depth haplogroup.

Hypothesis Hdepth : (0 <= depth)%Z.
Hypothesis Hkeys : queue_keys queue' (range (depth + 1)) keys.
Hypothesis Hself : Forall (fun k => k <> SELF_BRANCH_NAME) keys.
Hypothesis Hraw : raw_node (VDict (raw_tree self)).

(** One insertion: the path [queue[0], ..., queue[depth]] is walked and
    created where missing, the payload becomes the self-branch of its last
    node, and nothing off that path changes. *)
Lemma grow_tree_spec :
  exists self',
    grow_tree self haplogroup conditions example_accessions depth = Ok self'
    /\ queue self' = queue'
    /\ in_useful_range self' = in_useful_range self
    /\ walk (VDict (raw_tree self')) (keys ++ [SELF_BRANCH_NAME])
       = Some (payload_of conditions example_accessions)
    /\ (forall p, diverges p (keys ++ [SELF_BRANCH_NAME]) ->
          walk (VDict (raw_tree self')) p = walk (VDict (raw_tree self)) p)
    /\ raw_node (VDict (raw_tree self')).
Proof.
  assert (Hne : keys <> []).
  { intros ->. inversion Hkeys as [E|]; subst.
    now apply (range_succ depth Hdepth). }
  destruct (get_deep_hash_spec queue' (range (depth + 1)) keys (raw_tree self)
              Hkeys Hne Hself Hraw)
    as (node & put & Eh & Hnode & Hw & Hd & Hput & Hdiv & Hr).
  unfold grow_tree. fold queue'. rewrite Eh. cbn [bind setitem].
  set (payload := self_branch_of conditions example_accessions).
  destruct (Hd (VDict (set node SELF_BRANCH_NAME payload))) as (d' & Ed).
  rewrite Ed. eexists. split; [reflexivity|]. cbn [queue in_useful_range raw_tree].
  rewrite <- Ed. conj; [reflexivity | reflexivity | | |].
  - rewrite walk_app, Hput. cbn [walk]. now rewrite get_set_same.
  - intros p Hp. apply diverges_snoc in Hp as [Hp | (k' & r & -> & Hk')].
    + now apply Hdiv.
    + rewrite walk_app, Hput, <- Hw by discriminate.
      cbn [walk]. rewrite get_set_other by congruence. reflexivity.
  - apply Hr. apply raw_node_set; [exact Hnode | congruence].
Qed.

End Insertion.

(** An insertion below a depth the queue has no name for: the first row of
    a document with its conditions in the third column.  The walk stops at
    [queue[0]] with a [KeyError], no path is created and no payload
    attached. *)
Lemma C1_counterexample_missing_ancestor :
  grow_tree init BLANK_BRANCH_NAME [py "A1G"] [py "H1"] 1 = Raise KeyError
  /\ process_tr init (map py [""; ""; "A1G"; "H1"; ""]%string)
     = Raise KeyError.
Proof. split; vm_compute; reflexivity. Qed.

(** C1: inserting rows with depths [0, 1, 1, 0] and names [H, H1, H2, I],
    in that order, into an empty tree with an empty queue gives a raw tree
    in which [H] has its self-branch and exactly the children [H1] and
    [H2], and [I] is a root-level sibling of [H]; overwriting [queue[0]]
    with [I] leaves [H1] and [H2] where they are.  In general an insertion
    at a depth that is not negative, with a name in the queue at every
    depth up to its own once [queue[depth]] is written, none of them the
    reserved key, into a raw tree, walks the path
    [queue[0], ..., queue[depth]], creating the nodes that are missing,
    sets the self-branch of the last node to the dict of the row's
    conditions and example accessions, and changes nothing off that path;
    the tree is a raw tree again. *)
Theorem C1_tree_accumulator_insertion
  (c1 e1 c2 e2 c3 e3 c4 e4 : list str)
  (self : parser) (haplogroup : str)
  (conditions example_accessions : list str) (depth : Z) (keys : list str)
  (Hdepth : (0 <= depth)%Z)
  (Hkeys : queue_keys (dict_set Z.eqb (queue self) depth haplogroup)
                      (range (depth + 1)) keys)
  (Hself : Forall (fun k => k <> SELF_BRANCH_NAME) keys)
  (Hraw : raw_node (VDict (raw_tree self))) :
  (s1 <- grow_tree init (py "H") c1 e1 0 ;;
   s2 <- grow_tree s1 (py "H1") c2 e2 1 ;;
   s3 <- grow_tree s2 (py "H2") c3 e3 1 ;;
   grow_tree s3 (py "I") c4 e4 0)
  = Ok (mkParser false
          [(0%Z, py "I"); (1%Z, py "H2")]
          [(py "H",
            VDict [(SELF_BRANCH_NAME, payload_of c1 e1);
                   (py "H1", VDict [(SELF_BRANCH_NAME, payload_of c2 e2)]);
                   (py "H2", VDict [(SELF_BRANCH_NAME, payload_of c3 e3)])]);
           (py "I", VDict [(SELF_BRANCH_NAME, payload_of c4 e4)])])
  /\ exists self',
       grow_tree self haplogroup conditions example_accessions depth = Ok self'
       /\ queue self' = dict_set Z.eqb (queue self) depth haplogroup
       /\ walk (VDict (raw_tree self')) (keys ++ [SELF_BRANCH_NAME])
          = Some (payload_of conditions example_accessions)
       /\ walk (VDict (raw_tree self'))
               (keys ++ [SELF_BRANCH_NAME; py "conditions"])
          = Some (VList conditions)
       /\ walk (VDict (raw_tree self'))
               (keys ++ [SELF_BRANCH_NAME; py "example_accessions"])
          = Some (VList example_accessions)
       /\ (forall p, diverges p (keys ++ [SELF_BRANCH_NAME]) ->
             walk (VDict (raw_tree self')) p = walk (VDict (raw_tree self)) p)
       /\ raw_node (VDict (raw_tree self')).
Proof.
  split; [vm_compute; reflexivity|].
  destruct (grow_tree_spec self haplogroup conditions example_accessions
              depth keys Hdepth Hkeys Hself Hraw)
    as (self' & E & Hq & _ & Hw & Hd & Hr).
  exists self'. conj; auto.
  - change (keys ++ [SELF_BRANCH_NAME; py "conditions"])
      with (keys ++ [SELF_BRANCH_NAME] ++ [py "conditions"]).
    rewrite app_assoc, walk_app, Hw. reflexivity.
  - change (keys ++ [SELF_BRANCH_NAME; py "example_accessions"])
      with (keys ++ [SELF_BRANCH_NAME] ++ [py "example_accessions"]).
    rewrite app_assoc, walk_app, Hw. reflexivity.
Qed.

Lemma C1_witness :
  exists self',
    grow_tree (mkParser true [(0%Z, py "H")]
                 [(py "H", VDict [(SELF_BRANCH_NAME,
                                   payload_of [py "A1G"] [])])])
              (py "H1") [py "T2C"; py "G3A!"] [py "AB123456"] 1
    = Ok self'
    /\ queue self' = [(0%Z, py "H"); (1%Z, py "H1")]
    /\ walk (VDict (raw_tree self')) [py "H"; py "H1"; SELF_BRANCH_NAME]
       = Some (payload_of [py "T2C"; py "G3A!"] [py "AB123456"])
    /\ walk (VDict (raw_tree self'))
            [py "H"; py "H1"; SELF_BRANCH_NAME; py "conditions"]
       = Some (VList [py "T2C"; py "G3A!"])
    /\ walk (VDict (raw_tree self'))
            [py "H"; py "H1"; SELF_BRANCH_NAME; py "example_accessions"]
       = Some (VList [py "AB123456"])
    /\ (forall p, diverges p [py "H"; py "H1"; SELF_BRANCH_NAME] ->
          walk (VDict (raw_tree self')) p
          = walk (VDict [(py "H", VDict [(SELF_BRANCH_NAME,
                                          payload_of [py "A1G"] [])])]) p)
    /\ raw_node (VDict (raw_tree self')).
Proof.
  apply (C1_tree_accumulator_insertion [] [] [] [] [] [] [] []
           (mkParser true [(0%Z, py "H")]
              [(py "H", VDict [(SELF_BRANCH_NAME,
                                payload_of [py "A1G"] [])])])
           (py "H1") [py "T2C"; py "G3A!"] [py "AB123456"] 1
           [py "H"; py "H1"]).
  - lia.
  - repeat constructor.
  - repeat constructor; discriminate.
  - constructor. intros k v [[= <- <-] | []] _.
    constructor. intros k v [[= <- <-] | []] Hk. now elim Hk.
Defined.

End TreeClaims.

(** ** The tree normalizer and the flattening: claim C5 *)

Module FlattenClaims.
Import Trees TreeClaims.

Lemma prettify_items_pretty items : forall acc res,
  Forall (fun kv => forall p, _prettify (snd kv) = Ok p -> pretty p) items ->
  (forall k v, In (k, v) acc -> pretty v) ->
  prettify_items _prettify items acc = Ok res ->
  forall k v, In (k, v) res -> pretty v.
Proof.
  induction items as [|[name branches] items IH]; intros acc res Hall Hacc H.
  - cbn in H. injection H as <-. exact Hacc.
  - cbn [prettify_items] in H. apply Forall_cons_iff in Hall as [Hb Hall].
    cbn [snd] in Hb.
    destruct (negb (str_eqb name SELF_BRANCH_NAME)).
    + destruct (_prettify branches) as [p|] eqn:Ep; [|discriminate H].
      cbn [bind] in H. eapply IH; [exact Hall | | exact H].
      intros k v Hin. apply In_set in Hin as [[_ ->] | Hin]; eauto.
    + eapply IH; eauto.
Qed.

(** [_prettify] returns a tree of the [pretty] shape. *)
Lemma prettify_pretty raw : forall p, _prettify raw = Ok p -> pretty p.
Proof.
  induction raw as [s | l | d IH] using value_ind; intros p H.
  - cbn in H. now destruct Re.search.
  - cbn in H. now destruct existsb.
  - cbn [_prettify] in H.
    destruct (prettify_items _prettify d []) as [desc|] eqn:Ed;
      [|discriminate H].
    cbn [bind] in H.
    pose proof (prettify_items_pretty d [] desc IH
                  (fun k v (F : In (k, v) []) => match F with end) Ed) as Hdesc.
    match type of H with
    | bind ?pt _ = _ => destruct pt as [base|] eqn:Eb
    end; [|discriminate H].
    cbn [bind] in H. injection H as <-.
    assert (Hbase : get base (py "descentants") = None).
    { repeat match type of Eb with
             | (if ?c then _ else _) = _ => destruct c
             | match ?x with _ => _ end = _ => destruct x
             | bind ?x _ = _ => destruct x; cbn [bind] in Eb
             | Ok _ = Ok _ => injection Eb as <-
             | Raise _ = Ok _ => discriminate Eb
             end; reflexivity. }
    destruct desc as [|kv desc].
    + cbn [length Nat.eqb negb]. now apply pretty_leaf.
    + cbn [length Nat.eqb negb].
      eapply pretty_inner; [apply get_set_same | discriminate | exact Hdesc].
Qed.

Lemma height_In d k v : In (k, v) d -> height v < height (VDict d).
Proof.
  cbn [height]. induction d as [|[k' v'] d IH]; [intros []|].
  cbn [fold_right snd]. intros [[= -> ->] | H]; [lia|].
  specialize (IH H). lia.
Qed.

Lemma pretty_getitem_KeyError v key e :
  pretty v -> getitem v key = Raise e -> e = KeyError.
Proof.
  intros Hv. destruct Hv; cbn [getitem]; destruct (get b key); congruence.
Qed.

(** On a tree of the [pretty] shape the flattening always ends in a
    [KeyError]: the walk through first children reaches a node without
    ['descentants']. *)
Lemma flatten_pretty_KeyError : forall fuel p pretty_tree parent,
  pretty p -> height p < fuel ->
  exists out,
    _prettify_to_array fuel p pretty_tree parent = Some (out, Raise KeyError).
Proof.
  induction fuel as [|fuel IH]; intros p pt parent Hp Hh; [lia|].
  cbn [_prettify_to_array].
  destruct Hp as [b Hb | b ds Hb Hne Hds].
  - cbn [getitem]. rewrite Hb. cbn [bind]. eauto.
  - cbn [getitem]. rewrite Hb. cbn [bind items].
    destruct ds as [|[name branches] rest]; [congruence|].
    cbn [flatten_items].
    pose proof (Hds name branches (or_introl eq_refl)) as Hbr.
    destruct (getitem branches (py "conditions")) as [c|e] eqn:Ec.
    2:{ apply pretty_getitem_KeyError in Ec as ->; eauto. }
    destruct (getitem branches (py "descentants")) as [dsc|e] eqn:Ed.
    2:{ apply pretty_getitem_KeyError in Ed as ->; eauto. }
    assert (Ht : truthy dsc = true).
    { destruct Hbr as [b' Hb' | b' ds' Hb' Hne' _]; cbn [getitem] in Ed;
        rewrite Hb' in Ed; [discriminate Ed|].
      injection Ed as <-. now destruct ds'. }
    rewrite Ht.
    destruct (IH branches
                 (pt ++ [parent ++ [VDict (set (set [] (py "name") (VStr name))
                                               (py "conditions") c)]])
                 parent Hbr) as (out & ->).
    + pose proof (height_In b _ _ (get_In b _ _ Hb)) as H1.
      pose proof (height_In ((name, branches) :: rest) name branches
                    (or_introl eq_refl)) as H2.
      lia.
    + eauto.
Qed.

(** C5 (what the code does): whenever [prettify] returns a tree,
    [prettify_to_array] ends in a [KeyError] on it; on the tree of rows
    [H, H1, H2, I] it has by then appended the entries of [H] and of [H1],
    the latter without its ancestor [H]. *)
Theorem C5_prettify_to_array_raises_KeyError
  (self : parser) (default_pretty_tree : paths) (p : value)
  (H : prettify self = Ok p) :
  (exists out,
     prettify_to_array self default_pretty_tree = Some (out, Raise KeyError))
  /\ prettify_to_array
       (mkParser true [(0%Z, py "I"); (1%Z, py "H2")]
          [(py "H",
            VDict [(SELF_BRANCH_NAME, self_branch_of [py "A1G"] []);
                   (py "H1", VDict [(SELF_BRANCH_NAME,
                                     self_branch_of [py "T2C"] [])]);
                   (py "H2", VDict [(SELF_BRANCH_NAME,
                                     self_branch_of [py "G3A"] [])])]);
           (py "I", VDict [(SELF_BRANCH_NAME, self_branch_of [py "C4T"] [])])])
       []
     = Some ([ [VDict [(py "name", VStr (py "H"));
                       (py "conditions", VList [py "A1G"])]];
               [VDict [(py "name", VStr (py "H1"));
                       (py "conditions", VList [py "T2C"])]] ],
             Raise KeyError).
Proof.
  split; [|vm_compute; reflexivity].
  unfold prettify_to_array. rewrite H.
  apply flatten_pretty_KeyError; [|lia].
  now apply (prettify_pretty (VDict (raw_tree self))).
Qed.

Lemma C5_witness :
  exists out,
    prettify_to_array
      (mkParser true [(0%Z, py "H")]
         [(py "H", VDict [(SELF_BRANCH_NAME, self_branch_of [py "A1G"] [])])])
      []
    = Some (out, Raise KeyError).
Proof.
  eapply (C5_prettify_to_array_raises_KeyError
            (mkParser true [(0%Z, py "H")]
               [(py "H", VDict [(SELF_BRANCH_NAME,
                                 self_branch_of [py "A1G"] [])])])
            []).
  vm_compute. reflexivity.
Defined.

End FlattenClaims.

(** ** Text normalization, the title marker and the splitting of conditions *)

Module TextProps.
Import Re MFacts Forms PatternFacts StrFacts Rows Shapes.

Lemma sub_leading_ws_head v : head_ok (sub_leading_ws v) = true.
Proof.
  induction v as [|c v IH]; [reflexivity|]. cbn [sub_leading_ws].
  destruct (is_space c) eqn:E; [exact IH|]. cbn [head_ok]. now rewrite E.
Qed.

Lemma sub_leading_ws_suffix v :
  exists ws, v = ws ++ sub_leading_ws v /\ forallb is_space ws = true.
Proof.
  induction v as [|c v (ws & E & Hws)]; [now exists []|].
  cbn [sub_leading_ws]. destruct (is_space c) eqn:Ec.
  - exists (c :: ws). cbn [app forallb]. rewrite Ec, Hws. now rewrite <- E.
  - now exists [].
Qed.

Lemma sub_leading_ws_fixed v : head_ok v = true -> sub_leading_ws v = v.
Proof.
  destruct v as [|c v]; [reflexivity|]. cbn [head_ok sub_leading_ws].
  now destruct (is_space c).
Qed.

Lemma sub_trailing_ws_prefix v :
  exists ws, v = sub_trailing_ws v ++ ws /\ forallb is_space ws = true.
Proof.
  unfold sub_trailing_ws.
  destruct (sub_leading_ws_suffix (rev v)) as (ws & E & Hws).
  exists (rev ws). split.
  - rewrite <- rev_app_distr, <- E. now rewrite rev_involutive.
  - rewrite forallb_forall in *. intros c Hc. apply Hws. now apply in_rev.
Qed.

Lemma sub_trailing_ws_ends v : ends_ok (sub_trailing_ws v) = true.
Proof.
  unfold ends_ok, sub_trailing_ws. rewrite rev_involutive.
  apply sub_leading_ws_head.
Qed.

Lemma sub_trailing_ws_head v :
  head_ok v = true -> head_ok (sub_trailing_ws v) = true.
Proof.
  intros H. destruct (sub_trailing_ws_prefix v) as (ws & E & _).
  destruct (sub_trailing_ws v) as [|c u]; [reflexivity|].
  rewrite E in H. exact H.
Qed.

Lemma ends_ok_cons c v : v <> [] -> ends_ok (c :: v) = ends_ok v.
Proof.
  intros Hne. unfold ends_ok. cbn [rev].
  destruct (rev v) as [|x r] eqn:E; [|reflexivity].
  apply (f_equal (@rev ascii)) in E. rewrite rev_involutive in E.
  now subst v.
Qed.

Lemma ends_ok_ws c v :
  is_space c = true -> ends_ok (c :: v) = true -> v <> [] /\ ends_ok v = true.
Proof.
  intros Hc H. destruct v as [|x v].
  - unfold ends_ok in H. cbn in H. now rewrite Hc in H.
  - split; [discriminate|]. now rewrite ends_ok_cons in H by discriminate.
Qed.

Lemma ends_ok_tail c v : ends_ok (c :: v) = true -> ends_ok v = true.
Proof.
  destruct v as [|x v]; [reflexivity|].
  now rewrite ends_ok_cons by discriminate.
Qed.

(** After a run of white space the next character put out is not one. *)
Lemma sub_ws_runs_after_ws v :
  v <> [] -> ends_ok v = true ->
  exists c r, sub_ws_runs_from true v = c :: r /\ is_space c = false.
Proof.
  induction v as [|c v IH]; intros Hne He; [congruence|].
  cbn [sub_ws_runs_from]. destruct (is_space c) eqn:Ec.
  - destruct (ends_ok_ws c v Ec He) as [Hv Hev]. now apply IH.
  - eauto.
Qed.

Lemma sub_ws_runs_inner v : forall b,
  ends_ok v = true -> inner_ok (sub_ws_runs_from b v) = true.
Proof.
  induction v as [|c v IH]; intros b He; [reflexivity|].
  cbn [sub_ws_runs_from]. destruct (is_space c) eqn:Ec.
  - destruct (ends_ok_ws c v Ec He) as [Hv Hev]. destruct b; [now apply IH|].
    cbn [inner_ok]. replace (is_space " ") with true by reflexivity.
    destruct (sub_ws_runs_after_ws v Hv Hev) as (x & r & E & Hx).
    pose proof (IH true Hev) as Hin. rewrite E in *.
    now rewrite Hx, Hin.
  - cbn [inner_ok]. rewrite Ec. cbn [andb]. apply IH.
    now apply ends_ok_tail in He.
Qed.

Lemma sub_ws_runs_head v :
  head_ok v = true -> head_ok (sub_ws_runs v) = true.
Proof.
  destruct v as [|c v]; [reflexivity|]. unfold sub_ws_runs.
  cbn [head_ok sub_ws_runs_from]. destruct (is_space c) eqn:E; [discriminate|].
  intros _. cbn [head_ok]. now rewrite E.
Qed.

Lemma inner_ok_ends v : inner_ok v = true -> ends_ok v = true.
Proof.
  induction v as [|c v IH]; [reflexivity|]. cbn [inner_ok].
  intros H. apply andb_true_iff in H as [Hc Hv].
  destruct v as [|x v].
  - unfold ends_ok. cbn. destruct (is_space c); [|reflexivity].
    now rewrite andb_false_r in Hc.
  - rewrite ends_ok_cons by discriminate. now apply IH.
Qed.

Lemma sub_ws_runs_fixed v :
  inner_ok v = true -> sub_ws_runs_from false v = v.
Proof.
  induction v as [|c v IH]; [reflexivity|]. cbn [inner_ok sub_ws_runs_from].
  intros H. apply andb_true_iff in H as [Hc Hv].
  destruct (is_space c) eqn:Ec.
  - apply andb_true_iff in Hc as [Hsp Hnext]. apply chr_eqb_eq in Hsp. subst c.
    destruct v as [|x v]; [discriminate Hnext|].
    specialize (IH Hv). cbn [sub_ws_runs_from] in *.
    destruct (is_space x); [discriminate Hnext|]. now rewrite IH.
  - now rewrite IH.
Qed.

Lemma sub_trailing_ws_fixed v : ends_ok v = true -> sub_trailing_ws v = v.
Proof.
  unfold ends_ok, sub_trailing_ws. intros H.
  rewrite sub_leading_ws_fixed by exact H. apply rev_involutive.
Qed.

Lemma trim_normal_form text : normalized (trim_white_space text) = true.
Proof.
  unfold normalized, trim_white_space. apply andb_true_iff. split.
  - apply sub_ws_runs_head, sub_trailing_ws_head, sub_leading_ws_head.
  - apply sub_ws_runs_inner, sub_trailing_ws_ends.
Qed.

Lemma sub_ws_runs_length v : forall b,
  length (sub_ws_runs_from b v) <= length v.
Proof.
  induction v as [|c v IH]; intros b; [reflexivity|].
  cbn [sub_ws_runs_from]. destruct (is_space c).
  - destruct b; cbn [length]; [specialize (IH true) | specialize (IH true)];
      lia.
  - cbn [length]. specialize (IH false). lia.
Qed.

(** What [trim_white_space] returns has no white space at either end and
    inside it only single spaces, and it is never longer than the text. *)
Theorem trim_white_space_normalized text :
  normalized (trim_white_space text) = true
  /\ length (trim_white_space text) <= length text.
Proof.
  split; [apply trim_normal_form|].
  unfold trim_white_space, sub_ws_runs.
  pose proof (sub_ws_runs_length
                (sub_trailing_ws (sub_leading_ws text)) false) as H1.
  destruct (sub_trailing_ws_prefix (sub_leading_ws text)) as (w2 & E2 & _).
  destruct (sub_leading_ws_suffix text) as (w1 & E1 & _).
  apply (f_equal (@length ascii)) in E1, E2.
  rewrite length_app in E1, E2. lia.
Qed.

(** Normalized text is left as it is; so normalizing twice is normalizing
    once. *)
Theorem trim_white_space_idempotent text :
  (normalized text = true -> trim_white_space text = text)
  /\ trim_white_space (trim_white_space text) = trim_white_space text.
Proof.
  assert (Hfix : forall t, normalized t = true -> trim_white_space t = t).
  { intros t H. apply andb_true_iff in H as [Hh Hi].
    unfold trim_white_space. rewrite sub_leading_ws_fixed by exact Hh.
    rewrite sub_trailing_ws_fixed by now apply inner_ok_ends.
    now apply sub_ws_runs_fixed. }
  split; [apply Hfix | apply Hfix, trim_normal_form].
Qed.

Lemma trim_idempotent_witness :
  trim_white_space (py "C150T T152C!") = py "C150T T152C!".
Proof.
  apply trim_white_space_idempotent. vm_compute. reflexivity.
Defined.

Lemma filter_not_space_ws ws :
  forallb is_space ws = true -> filter not_space ws = [].
Proof.
  induction ws as [|c ws IH]; [reflexivity|]. cbn [forallb filter].
  intros H. apply andb_true_iff in H as [Hc Hws].
  unfold not_space at 1. rewrite Hc. cbn [negb]. now apply IH.
Qed.

Lemma sub_ws_runs_filter v : forall b,
  filter not_space (sub_ws_runs_from b v) = filter not_space v.
Proof.
  induction v as [|c v IH]; intros b; [reflexivity|].
  cbn [sub_ws_runs_from filter]. unfold not_space at 2.
  destruct (is_space c) eqn:Ec; cbn [negb].
  - destruct b; [apply IH|]. cbn [filter].
    replace (not_space " ") with false by reflexivity. apply IH.
  - cbn [filter]. unfold not_space at 1. rewrite Ec. cbn [negb].
    now rewrite IH.
Qed.

(** [trim_white_space] keeps the characters that are not white space, in
    their order; it returns the empty string exactly for texts of white
    space only. *)
Theorem trim_white_space_keeps_characters text :
  filter not_space (trim_white_space text) = filter not_space text
  /\ (trim_white_space text = [] <-> forallb is_space text = true).
Proof.
  assert (E : filter not_space (trim_white_space text)
              = filter not_space text).
  { unfold trim_white_space, sub_ws_runs. rewrite sub_ws_runs_filter.
    destruct (sub_leading_ws_suffix text) as (ws1 & E1 & H1).
    destruct (sub_trailing_ws_prefix (sub_leading_ws text)) as (ws2 & E2 & H2).
    rewrite E1 at 2. rewrite E2 at 2.
    rewrite !filter_app, (filter_not_space_ws ws1 H1),
      (filter_not_space_ws ws2 H2).
    now rewrite app_nil_r. }
  split; [exact E|]. split.
  - intros Hn. rewrite Hn in E. cbn [filter] in E.
    apply forallb_forall. intros c Hc.
    destruct (is_space c) eqn:Ec; [reflexivity|].
    assert (Hin : In c (filter not_space text)).
    { apply filter_In. split; [exact Hc|]. unfold not_space. now rewrite Ec. }
    rewrite <- E in Hin. destruct Hin.
  - intros Hall. pose proof (trim_normal_form text) as Hn.
    rewrite (filter_not_space_ws text Hall) in E.
    apply andb_true_iff in Hn as [Hh _].
    destruct (trim_white_space text) as [|c t]; [reflexivity|].
    cbn [head_ok] in Hh. cbn [filter] in E. unfold not_space at 1 in E.
    rewrite Hh in E. discriminate E.
Qed.

Lemma trim_keeps_characters_witness :
  trim_white_space ("009"%char :: py "  " ++ ["010"%char]) = [].
Proof.
  apply trim_white_space_keeps_characters. vm_compute. reflexivity.
Defined.

(** [is_table_title] holds exactly for the texts with [mt-MRCA] somewhere
    in them. *)
Theorem is_table_title_holds_marker text :
  is_table_title text = true <-> holds (py "mt-MRCA") text.
Proof.
  unfold is_table_title, TABLE_TITLE, holds.
  rewrite ReFacts.search_spec. split.
  - intros (l & m & a & -> & H). apply M_Lit in H as ->. eauto.
  - intros (l & a & ->). exists l, (py "mt-MRCA"), a.
    split; [reflexivity | now apply M_Lit].
Qed.

Lemma is_table_title_witness : holds (py "mt-MRCA") (py "L0 mt-MRCA (RSRS)").
Proof.
  apply is_table_title_holds_marker. vm_compute. reflexivity.
Defined.

Lemma split_from_join sep s : forall cur,
  Spec.join [sep] (split_from sep cur s) = rev cur ++ s.
Proof.
  induction s as [|c s IH]; intros cur; cbn [split_from].
  - cbn [Spec.join]. now rewrite app_nil_r.
  - destruct (chr_eqb c sep) eqn:E.
    + apply chr_eqb_eq in E. subst c.
      pose proof (IH []) as Hj.
      destruct (split_from sep [] s) as [|x r] eqn:Es.
      * now apply RowClaims.split_from_nonempty in Es.
      * change (Spec.join [sep] (rev cur :: x :: r))
          with (rev cur ++ [sep] ++ Spec.join [sep] (x :: r)).
        rewrite Hj. reflexivity.
    + rewrite IH. cbn [rev]. now rewrite <- app_assoc.
Qed.

Lemma split_from_pieces sep s : forall cur,
  ~ In sep cur ->
  Forall (fun piece => ~ In sep piece) (split_from sep cur s).
Proof.
  induction s as [|c s IH]; intros cur Hcur; cbn [split_from].
  - constructor; [|constructor]. intros H. now apply in_rev in H.
  - destruct (chr_eqb c sep) eqn:E.
    + constructor; [intros H; now apply in_rev in H|].
      apply IH. intros [].
    + apply IH. intros [-> | H]; [|now apply Hcur].
      now rewrite chr_eqb_refl in E.
Qed.

(** [text.split(sep)] cuts at every separator: no piece holds the
    separator, and joining the pieces with it gives the text back. *)
Theorem split_join_round_trip sep text :
  Spec.join [sep] (split sep text) = text
  /\ Forall (fun piece => ~ In sep piece) (split sep text).
Proof.
  unfold split. split; [apply split_from_join|].
  apply split_from_pieces. intros [].
Qed.

Lemma split_from_no_sep sep t : forall cur,
  ~ In sep t -> split_from sep cur t = [rev cur ++ t].
Proof.
  induction t as [|c t IH]; intros cur H; cbn [split_from].
  - now rewrite app_nil_r.
  - destruct (chr_eqb c sep) eqn:E.
    + apply chr_eqb_eq in E. subst c. exfalso. apply H. now left.
    + rewrite IH by (intros Hin; apply H; now right).
      cbn [rev]. now rewrite <- app_assoc.
Qed.

Lemma split_from_at_sep sep t rest : forall cur,
  ~ In sep t ->
  split_from sep cur (t ++ sep :: rest)
  = (rev cur ++ t) :: split_from sep [] rest.
Proof.
  induction t as [|c t IH]; intros cur H; cbn [split_from app].
  - rewrite chr_eqb_refl. now rewrite app_nil_r.
  - destruct (chr_eqb c sep) eqn:E.
    + apply chr_eqb_eq in E. subst c. exfalso. apply H. now left.
    + rewrite IH by (intros Hin; apply H; now right).
      cbn [rev]. now rewrite <- app_assoc.
Qed.

Lemma not_space_no_space t : forallb not_space t = true -> ~ In " "%char t.
Proof.
  intros H Hin. rewrite forallb_forall in H. specialize (H _ Hin).
  discriminate H.
Qed.

Lemma inner_ok_app_ws x w y :
  is_space w = true -> inner_ok (x ++ w :: y) = true ->
  w = " "%char /\ inner_ok y = true.
Proof.
  intros Hw. induction x as [|c x IH]; cbn [app inner_ok]; intros H;
    apply andb_true_iff in H as [Hc H].
  - rewrite Hw in Hc. apply andb_true_iff in Hc as [Hc _].
    apply chr_eqb_eq in Hc. now split.
  - now apply IH.
Qed.

Lemma separated_split text :
  ws_separated text -> inner_ok text = true ->
  Forall valid_token (split " " text).
Proof.
  unfold split. induction 1 as [t Ht | t w rest Ht Hw Hrest IH]; intros Hin.
  - rewrite split_from_no_sep
      by now apply not_space_no_space, valid_token_not_space.
    now constructor.
  - destruct (inner_ok_app_ws t w rest Hw Hin) as [-> Hr].
    rewrite split_from_at_sep
      by now apply not_space_no_space, valid_token_not_space.
    constructor; [exact Ht | now apply IH].
Qed.

(** The conditions [process_tr] takes from a condition cell, the pieces of
    the normalized text between spaces, are valid tokens, one by one. *)
Theorem condition_cell_splits_into_valid_tokens
  (raw : str) (H : is_condition_cell raw = true) :
  Forall valid_token (split " " (trim_white_space raw)).
Proof.
  unfold is_condition_cell in H. apply andb_true_iff in H as [_ H].
  apply is_branch_conditions_spec in H.
  pose proof (trim_normal_form raw) as Hn.
  apply andb_true_iff in Hn as [_ Hn].
  now apply separated_split.
Qed.

Lemma condition_cell_witness :
  Forall valid_token
         (split " " (trim_white_space
                       ("009"%char :: py "C150T" ++ "010"%char :: py " T152C! "))).
Proof.
  apply condition_cell_splits_into_valid_tokens. vm_compute. reflexivity.
Defined.

End TextProps.

(** ** Rows and tables: edge cases and failures *)

Module RowProps.
Import Forms Rows Shapes RowClaims.

Lemma index_raises_IndexError {A} (l : list A) i e :
  index l i = Raise e -> e = IndexError.
Proof.
  unfold index.
  destruct ((_ <? 0)%Z || (_ <=? _)%Z); [congruence|].
  destruct nth_error; congruence.
Qed.

Lemma comprehension_raises_IndexError cols idxs e :
  comprehension cols idxs = Raise e -> e = IndexError.
Proof.
  induction idxs as [|i idxs IH]; cbn [comprehension]; [discriminate|].
  destruct (index cols i) eqn:Ei; cbn [bind].
  - destruct (comprehension cols idxs); cbn [bind]; [discriminate|].
    intros [= <-]. now apply IH.
  - intros [= <-]. now apply index_raises_IndexError in Ei.
Qed.

Lemma last_two {A} (l : list A) :
  2 <= length l -> exists front a b, l = front ++ [a; b].
Proof.
  intros H.
  destruct (@exists_last _ l) as (l1 & b & ->); [now destruct l|].
  rewrite length_app in H. cbn [length] in H.
  destruct (@exists_last _ l1) as (front & a & ->);
    [destruct l1; [cbn in H; lia | discriminate]|].
  exists front, a, b. now rewrite <- app_assoc.
Qed.

(** [extract_example_accessions] fails, with an [IndexError], exactly on
    rows of fewer than two cells; otherwise it gives at most two strings,
    none of them empty, all of them cells of the row. *)
Theorem extract_example_accessions_bounds cols :
  (length cols < 2 -> extract_example_accessions cols = Raise IndexError)
  /\ (2 <= length cols ->
      exists l, extract_example_accessions cols = Ok l
                /\ length l <= 2
                /\ Forall (fun x => x <> []) l
                /\ incl l cols).
Proof.
  split.
  - intros H. destruct cols as [|a [|b cols]]; [reflexivity | reflexivity|].
    cbn [length] in H. lia.
  - intros H. destruct (last_two cols H) as (front & a & b & ->).
    rewrite extract_last_two. eexists. split; [reflexivity|].
    assert (Hincl : incl [a; b] (front ++ [a; b]))
      by (intros x Hx; apply in_or_app; now right).
    cbn [filter]. unfold nonempty.
    destruct a as [|ca a], b as [|cb b]; cbn [length Nat.eqb negb];
      repeat split; try (cbn [length]; lia);
      repeat constructor; try discriminate;
      intros x Hx; apply Hincl; cbn [In] in *; tauto.
Qed.

Lemma extract_bounds_witness :
  exists l, extract_example_accessions [py "H1"; py ""; py "AB123456"] = Ok l
            /\ length l <= 2
            /\ Forall (fun x => x <> []) l
            /\ incl l [py "H1"; py ""; py "AB123456"].
Proof.
  apply extract_example_accessions_bounds. cbn. lia.
Defined.

(** A row without a condition cell is skipped: [process_tr] leaves the
    parser as it is, whatever else the row holds. *)
Theorem row_without_conditions_is_skipped
  (self : parser) (tds : list str)
  (H : forall x, In x tds -> is_condition_cell x = false) :
  interpret_tr tds = Ok None /\ process_tr self tds = Ok self.
Proof.
  assert (E : interpret_tr tds = Ok None).
  { unfold interpret_tr. rewrite enumerate_from_0.
    destruct (fold_others tds 0 (mkLocals [] [] 0 []) H) as [-> _].
    reflexivity. }
  split; [exact E|]. unfold process_tr. now rewrite E.
Qed.

Lemma row_without_conditions_witness :
  interpret_tr (map py ["Haplogroup"; "  "; "A123"; "mt-MRCA (RSRS)"]%string)
  = Ok None
  /\ process_tr init
       (map py ["Haplogroup"; "  "; "A123"; "mt-MRCA (RSRS)"]%string)
     = Ok init.
Proof.
  apply row_without_conditions_is_skipped.
  intros x Hx. cbn [map In] in Hx.
  repeat (destruct Hx as [<- | Hx]; [vm_compute; reflexivity|]).
  destruct Hx.
Defined.

Lemma detect_loop_raises_NameError ex candidates : forall haplogroup e,
  detect_loop candidates ex haplogroup = Raise e -> e = NameError.
Proof.
  induction candidates as [|c cs IH]; intros hap e; cbn [detect_loop];
    [discriminate|].
  destruct (existsb (str_eqb c) ex); [apply IH|].
  destruct (truthy (VStr hap)); [congruence | apply IH].
Qed.

Lemma detect_haplogroup_raises_NameError candidates ex e :
  detect_haplogroup candidates ex = Raise e -> e = NameError.
Proof.
  unfold detect_haplogroup.
  destruct (detect_loop candidates ex []) eqn:E; cbn [bind]; [discriminate|].
  intros [= <-]. now apply detect_loop_raises_NameError in E.
Qed.

(** A row whose condition cell is its first cell never becomes a tree
    row: the depth is then -1 and [get_deep_hash] is given an empty index
    list, so [process_tr] raises, an [IndexError] unless the name
    resolution failed before. *)
Theorem condition_in_first_column_raises
  (self : parser) (raw : str) (post : list str)
  (Hraw : is_condition_cell raw = true)
  (Hpost : forall x, In x post -> is_condition_cell x = false) :
  exists e, process_tr self (raw :: post) = Raise e
            /\ (e = IndexError \/ e = NameError).
Proof.
  unfold process_tr. change (raw :: post) with ([] ++ raw :: post).
  rewrite (interpret_tr_condition [] raw post Hraw Hpost). cbn [app].
  destruct (extract_example_accessions _) as [ex|e] eqn:Ee; cbn [bind].
  2:{ exists e. split; [reflexivity|]. left.
      now apply comprehension_raises_IndexError in Ee. }
  destruct (detect_haplogroup _ ex) as [h|e] eqn:Ed; cbn [bind].
  2:{ exists e. split; [reflexivity|]. right.
      now apply detect_haplogroup_raises_NameError in Ed. }
  exists IndexError. split; [reflexivity | now left].
Qed.

Lemma condition_in_first_column_witness :
  exists e, process_tr init (map py ["A123G T456C"; "H1"; ""; ""]%string)
            = Raise e
            /\ (e = IndexError \/ e = NameError).
Proof.
  apply (condition_in_first_column_raises init (py "A123G T456C")
           (map py ["H1"; ""; ""]%string)).
  - vm_compute. reflexivity.
  - intros x Hx. cbn [map In] in Hx.
    repeat (destruct Hx as [<- | Hx]; [vm_compute; reflexivity|]).
    destruct Hx.
Defined.

(** A document without the title marker is discarded as a whole: [parse]
    leaves the parser as it was. *)
Theorem parse_without_title_changes_nothing
  (self : parser) (tables : list (list tr_t))
  (H0 : in_useful_range self = false)
  (H : forall table tr, In table tables -> In tr table ->
                        is_table_title (get_text tr) = false) :
  parse self tables = Ok self.
Proof.
  induction tables as [|table tables IH]; [reflexivity|].
  cbn [parse]. rewrite <- (app_nil_r table).
  rewrite process_table_before; [| exact H0 |].
  - cbn [process_table bind]. apply IH.
    intros t tr Ht. apply H. now right.
  - intros r Hr. apply (H table); [now left | exact Hr].
Qed.

Lemma parse_without_title_witness :
  parse init [[mkTr (py "H A123G") [py "H"; py "A123G"; py ""; py ""]];
              [mkTr (py "mt-MRC") [py "A123G"]]]
  = Ok init.
Proof.
  apply parse_without_title_changes_nothing; [reflexivity|].
  intros table tr Ht Htr. cbn [In] in Ht.
  destruct Ht as [<- | [<- | []]]; cbn [In] in Htr;
    destruct Htr as [<- | []]; vm_compute; reflexivity.
Defined.



End RowProps.

(** ** The tree: failures of an insertion, and the invariant of the parse *)

Module TreeProps.
Import Forms Rows Trees Shapes RowClaims TreeClaims FlattenClaims RowProps.





(** *** Grown trees *)

Lemma grown_raw v : grown v -> raw_node v.
Proof.
  induction 1 as [d _ _ IH]. constructor. exact IH.
Qed.

Lemma grown_empty : grown (VDict []).
Proof. constructor; intros k v []. Qed.

Lemma grown_set_child d k v :
  grown (VDict d) -> k <> SELF_BRANCH_NAME -> grown v ->
  grown (VDict (set d k v)).
Proof.
  intros H Hk Hv. inversion H as [d' Hs Hc E]. subst. constructor.
  - intros k' v' Hin Hk'. apply In_set in Hin as [[-> ->] | Hin];
      [congruence | eauto].
  - intros k' v' Hin Hk'. apply In_set in Hin as [[-> ->] | Hin]; eauto.
Qed.

Lemma grown_set_self d c e :
  grown (VDict d) ->
  grown (VDict (set d SELF_BRANCH_NAME (self_branch_of c e))).
Proof.
  intros H. inversion H as [d' Hs Hc E]. subst. constructor.
  - intros k' v' Hin Hk'. apply In_set in Hin as [[_ ->] | Hin]; [|eauto].
    exists c, e. reflexivity.
  - intros k' v' Hin Hk'. apply In_set in Hin as [[-> _] | Hin];
      [congruence | eauto].
Qed.

Lemma grown_child d k v :
  grown (VDict d) -> get d k = Some v -> k <> SELF_BRANCH_NAME -> grown v.
Proof.
  intros H Hg Hk. inversion H as [d' Hs Hc E]. subst.
  eapply Hc; [apply get_In; exact Hg | exact Hk].
Qed.

Lemma ensured_grown d key :
  grown (VDict d) -> key <> SELF_BRANCH_NAME -> grown (VDict (ensured d key)).
Proof.
  intros H Hk. unfold ensured. destruct (mem key d); cbn [negb]; [exact H|].
  apply grown_set_child; [exact H | exact Hk | apply grown_empty].
Qed.

(** The node [get_deep_hash] hands back is grown, and writing a grown node
    through the reference keeps the tree grown. *)
Lemma get_deep_hash_grown arr :
  (forall i k, dict_get Z.eqb arr i = Some k -> k <> SELF_BRANCH_NAME) ->
  forall itr d node put,
    grown (VDict d) ->
    get_deep_hash (VDict d) arr itr = Ok (node, put) ->
    grown node /\ forall n, grown n -> grown (put n).
Proof.
  intros Harr. induction itr as [|idx itr IH]; intros d node put Hd H;
    cbn [get_deep_hash] in H; [discriminate H|].
  destruct (dict_get Z.eqb arr idx) as [key|] eqn:Ek; [|discriminate H].
  pose proof (Harr idx key Ek) as Hk.
  fold (ensured d key) in H.
  pose proof (ensured_grown d key Hd Hk) as Hens.
  destruct (get (ensured d key) key) as [next|] eqn:Eg; [|discriminate H].
  pose proof (grown_child _ _ _ Hens Eg Hk) as Hnext.
  destruct itr as [|idx' itr'].
  - injection H as <- <-. split; [exact Hnext|].
    intros n Hn. now apply grown_set_child.
  - inversion Hnext as [c Hs Hc E]. subst next.
    destruct (get_deep_hash (VDict c) arr (idx' :: itr'))
      as [[node' put']|] eqn:Er; [|discriminate H].
    cbn [bind] in H. injection H as <- <-.
    destruct (IH c node' put' Hnext Er) as [Hnode Hput].
    split; [exact Hnode|]. intros n Hn. apply grown_set_child; auto.
Qed.

Lemma queue_set_get (q : queue_t) depth (v : str) i k :
  dict_get Z.eqb (dict_set Z.eqb q depth v) i = Some k ->
  k = v \/ dict_get Z.eqb q i = Some k.
Proof.
  induction q as [|[j x] q IH]; cbn [dict_set dict_get].
  - destruct (Z.eqb i depth); [intros [= <-]; now left | discriminate].
  - destruct (Z.eqb depth j) eqn:E; cbn [dict_get].
    + destruct (Z.eqb i j); [intros [= <-]; now left | now right].
    + destruct (Z.eqb i j); [now right | exact IH].
Qed.

Lemma grow_tree_ok self haplogroup cs ex depth self' :
  parser_ok self -> haplogroup <> SELF_BRANCH_NAME ->
  grow_tree self haplogroup cs ex depth = Ok self' -> parser_ok self'.
Proof.
  intros [Htree Hq] Hh H. unfold grow_tree in H.
  set (q' := dict_set Z.eqb (queue self) depth haplogroup) in *.
  assert (Hq' : forall i k, dict_get Z.eqb q' i = Some k ->
                            k <> SELF_BRANCH_NAME).
  { intros i k Hik. apply queue_set_get in Hik as [-> | Hik]; eauto. }
  destruct (get_deep_hash (VDict (raw_tree self)) q' (range (depth + 1)))
    as [[node put]|] eqn:Eh; [|discriminate H].
  destruct (get_deep_hash_grown q' Hq' _ _ _ _ Htree Eh) as [Hnode Hput].
  cbn [bind] in H. inversion Hnode as [d Hs Hc E]. subst node.
  cbn [setitem bind] in H.
  pose proof (Hput _ (grown_set_self d cs ex Hnode)) as Hnew.
  destruct (put _) as [| |d'] eqn:Ep; try discriminate H.
  injection H as <-. split; [exact Hnew | exact Hq'].
Qed.

Lemma detect_loop_member ex candidates : forall haplogroup h,
  detect_loop candidates ex haplogroup = Ok h ->
  h = haplogroup \/ In h candidates.
Proof.
  induction candidates as [|c cs IH]; intros hap h; cbn [detect_loop].
  - intros [= <-]. now left.
  - destruct (existsb (str_eqb c) ex).
    + intros H. apply IH in H as [? | ?]; [now left | right; now right].
    + destruct (truthy (VStr hap)); [discriminate|].
      intros H. apply IH in H as [-> | ?]; right; [now left | now right].
Qed.

Lemma detect_haplogroup_member candidates ex h :
  detect_haplogroup candidates ex = Ok h ->
  h = BLANK_BRANCH_NAME \/ In h candidates.
Proof.
  unfold detect_haplogroup.
  destruct (detect_loop candidates ex []) as [x|] eqn:E; cbn [bind];
    [|discriminate].
  intros [= <-]. destruct x as [|c x]; [now left|]. cbn [truthy negb].
  apply detect_loop_member in E as [E | ?]; [discriminate E | now right].
Qed.

Lemma interpret_tr_name tds row :
  row_ok tds -> interpret_tr tds = Ok (Some row) ->
  row_haplogroup row <> SELF_BRANCH_NAME.
Proof.
  intros Hok H. unfold interpret_tr in H.
  rewrite enumerate_from_0, fold_candidates in H.
  cbn [haplogroup_candidates app] in H.
  destruct (length _ =? 0)%nat; [discriminate H|].
  destruct (extract_example_accessions _) as [ex|]; [|discriminate H].
  cbn [bind] in H.
  destruct (detect_haplogroup _ ex) as [h|] eqn:Ed; [|discriminate H].
  cbn [bind] in H. injection H as <-. cbn [row_haplogroup].
  apply detect_haplogroup_member in Ed as [-> | Hin]; [discriminate|].
  apply filter_In in Hin as [Hin _].
  apply in_map_iff in Hin as (raw & <- & Hraw).
  unfold row_ok in Hok. rewrite Forall_forall in Hok. now apply Hok.
Qed.

Lemma process_tr_ok self tds self' :
  parser_ok self -> row_ok tds -> process_tr self tds = Ok self' ->
  parser_ok self'.
Proof.
  intros Hs Hok H. unfold process_tr in H.
  destruct (interpret_tr tds) as [[row|]|] eqn:E; cbn [bind] in H;
    try discriminate H.
  - eapply grow_tree_ok; [exact Hs | | exact H].
    now apply (interpret_tr_name tds).
  - now injection H as <-.
Qed.

Lemma process_table_ok table : forall self self',
  parser_ok self -> table_ok table -> process_table self table = Ok self' ->
  parser_ok self'.
Proof.
  induction table as [|tr table IH]; intros self self' Hs Hok H.
  - now injection H as <-.
  - apply Forall_cons_iff in Hok as [Hrow Hok]. cbn [process_table] in H.
    unfold is_in_useful_range in H.
    destruct (negb (in_useful_range self) && is_table_title (get_text tr)).
    + cbn [negb] in H. eapply IH; [| exact Hok | exact H]. exact Hs.
    + destruct (in_useful_range self); cbn [negb] in H.
      * destruct (process_tr self (find_all_td tr)) as [s2|] eqn:E;
          [|discriminate H].
        cbn [bind] in H. eapply IH; [| exact Hok | exact H].
        now apply (process_tr_ok self (find_all_td tr)).
      * eapply IH; eauto.
Qed.

Lemma parse_ok tables : forall self self',
  parser_ok self -> document_ok tables -> parse self tables = Ok self' ->
  parser_ok self'.
Proof.
  induction tables as [|table tables IH]; intros self self' Hs Hok H.
  - now injection H as <-.
  - apply Forall_cons_iff in Hok as [Ht Hok]. cbn [parse] in H.
    destruct (process_table self table) as [s1|] eqn:E; [|discriminate H].
    cbn [bind] in H. eapply IH; [| exact Hok | exact H].
    now apply (process_table_ok table self).
Qed.

Lemma init_ok : parser_ok init.
Proof. split; [apply grown_empty | intros i k H; discriminate H]. Qed.

Lemma prettify_items_grown items : forall acc,
  (forall k v, In (k, v) items -> k <> SELF_BRANCH_NAME ->
               exists p, _prettify v = Ok p) ->
  exists res, prettify_items _prettify items acc = Ok res.
Proof.
  induction items as [|[name branches] items IH]; intros acc H.
  - cbn. eauto.
  - cbn [prettify_items].
    destruct (str_eqb name SELF_BRANCH_NAME) eqn:E; cbn [negb].
    + apply IH. intros k v Hin. apply H. now right.
    + destruct (H name branches (or_introl eq_refl)) as (p & ->).
      { now apply str_eqb_neq. }
      cbn [bind]. apply IH. intros k v Hin. apply H. now right.
Qed.

Lemma prettify_grown v : grown v -> exists p, _prettify v = Ok p.
Proof.
  induction 1 as [d Hs _ IH]. cbn [_prettify].
  destruct (prettify_items_grown d [] IH) as (desc & ->). cbn [bind].
  destruct (mem SELF_BRANCH_NAME d) eqn:Em.
  - destruct (get d SELF_BRANCH_NAME) as [sb|] eqn:Eg.
    + destruct (Hs _ _ (get_In _ _ _ Eg) eq_refl) as (c & e & ->).
      cbn. eauto.
    + cbn. eauto.
  - cbn. eauto.
Qed.

Lemma prettify_items_shaped items : forall acc res,
  (forall k v, In (k, v) items -> k <> SELF_BRANCH_NAME ->
               forall p, _prettify v = Ok p -> shaped p) ->
  (forall k v, In (k, v) acc -> shaped v) ->
  prettify_items _prettify items acc = Ok res ->
  forall k v, In (k, v) res -> shaped v.
Proof.
  induction items as [|[name branches] items IH]; intros acc res Hall Hacc H.
  - cbn in H. injection H as <-. exact Hacc.
  - cbn [prettify_items] in H.
    destruct (str_eqb name SELF_BRANCH_NAME) eqn:En; cbn [negb] in H.
    + eapply IH; [| exact Hacc | exact H].
      intros k v Hin. apply Hall. now right.
    + destruct (_prettify branches) as [p|] eqn:Ep; [|discriminate H].
      cbn [bind] in H. eapply IH; [| | exact H].
      * intros k v Hin. apply Hall. now right.
      * intros k v Hin. apply In_set in Hin as [[_ ->] | Hin]; [|eauto].
        apply (Hall name branches); [now left | now apply str_eqb_neq | exact Ep].
Qed.

(** The entries for the node's own row do not depend on the descendants. *)
Lemma payload_ok_descentants base ds :
  get base (py "descentants") = None ->
  payload_ok base -> payload_ok (set base (py "descentants") ds).
Proof.
  intros _ [(c & e & Hc & He) | [Hc He]]; [left; exists c, e | right];
    rewrite !get_set_other by discriminate; auto.
Qed.

(** On a grown tree [_prettify] returns a [shaped] tree. *)
Lemma prettify_shaped v : grown v -> forall p, _prettify v = Ok p -> shaped p.
Proof.
  induction 1 as [d Hs _ IH]. intros p H. cbn [_prettify] in H.
  destruct (prettify_items _prettify d []) as [desc|] eqn:Ed;
    [|discriminate H].
  cbn [bind] in H.
  pose proof (prettify_items_shaped d [] desc IH
                (fun k v (F : In (k, v) []) => match F with end) Ed) as Hdesc.
  assert (Hbase : exists base,
             (if mem SELF_BRANCH_NAME d then get d SELF_BRANCH_NAME else None)
             = base
             /\ (base = None
                 \/ exists c e : list str, base = Some (payload_of c e))).
  { eexists. split; [reflexivity|].
    destruct (mem SELF_BRANCH_NAME d); [|now left].
    destruct (get d SELF_BRANCH_NAME) as [sb|] eqn:Eg; [|now left].
    right. destruct (Hs _ _ (get_In _ _ _ Eg) eq_refl) as (c & e & ->).
    now exists c, e. }
  destruct Hbase as (base & Eb & Hb). rewrite Eb in H.
  assert (Hpt : exists pt,
             p = VDict (if negb (length desc =? 0)%nat
                        then set pt (py "descentants") (VDict desc) else pt)
             /\ get pt (py "descentants") = None /\ payload_ok pt).
  { destruct Hb as [-> | (c & e & ->)].
    - cbn [bind] in H. injection H as <-. exists []. split; [reflexivity|].
      split; [reflexivity | right; split; reflexivity].
    - cbn [truthy] in H.
      change (getitem (payload_of c e) (py "conditions"))
        with (Ok (VList c)) in H.
      change (getitem (payload_of c e) (py "example_accessions"))
        with (Ok (VList e)) in H.
      cbn [bind] in H. injection H as <-.
      exists [(py "conditions", VList c); (py "example_accessions", VList e)].
      split; [reflexivity|].
      split; [reflexivity | left; exists c, e; split; reflexivity]. }
  destruct Hpt as (pt & -> & Hnone & Hpay).
  destruct desc as [|kv desc]; cbn [length Nat.eqb negb].
  - now apply shaped_leaf.
  - eapply shaped_inner;
      [now apply payload_ok_descentants | apply get_set_same | discriminate
      | exact Hdesc].
Qed.

(** Parsing keeps the tree grown: every self-branch entry is the dict of a
    list of conditions under ['conditions'] and a list of example
    accessions under ['example_accessions'], every other entry a node, and
    no queued name is the reserved key, as long as no cell of the document
    reads [__SELF__]. *)
Theorem parse_keeps_the_tree_grown
  (self self' : parser) (tables : list (list tr_t))
  (Hs : parser_ok self) (Hdoc : document_ok tables)
  (H : parse self tables = Ok self') :
  parser_ok self'.
Proof. exact (parse_ok tables self self' Hs Hdoc H). Qed.

Lemma parse_grown_witness :
  parser_ok
    (mkParser true [(0%Z, py "H"); (1%Z, py "H1")]
       [(py "H",
         VDict [(SELF_BRANCH_NAME, payload_of [py "A1G"] []);
                (py "H1", VDict [(SELF_BRANCH_NAME,
                                  payload_of [py "T2C"] [py "AB1"])])])]).
Proof.
  apply (parse_keeps_the_tree_grown init _
           [[mkTr (py "mt-MRCA") [];
             mkTr [] (map py [""; "A1G"; "H"; ""; ""]%string);
             mkTr [] (map py [""; ""; "T2C"; "H1"; ""; "AB1"]%string)]]).
  - split; [constructor; intros k v [] | intros i k E; discriminate E].
  - repeat constructor; discriminate.
  - vm_compute. reflexivity.
Defined.

(** After a parse that went through, [prettify] goes through as well, and
    what it returns has the normalized shape at every node: the
    ['conditions'] and the ['example_accessions'] entries come together,
    both of them lists, or not at all, and a ['descentants'] entry is never
    an empty dict; as long as no cell of the document reads [__SELF__]. *)
Theorem prettify_succeeds_after_parse
  (self' : parser) (tables : list (list tr_t))
  (Hdoc : document_ok tables)
  (H : parse init tables = Ok self') :
  exists p, prettify self' = Ok p /\ pretty p /\ shaped p.
Proof.
  destruct (parse_ok tables init self' init_ok Hdoc H) as [Htree _].
  destruct (prettify_grown _ Htree) as (p & E).
  exists p. split; [exact E|].
  split; [exact (prettify_pretty _ p E) | exact (prettify_shaped _ Htree p E)].
Qed.

Lemma prettify_after_parse_witness :
  exists p,
    prettify
      (mkParser true [(0%Z, py "H"); (1%Z, py "H1")]
         [(py "H",
           VDict [(SELF_BRANCH_NAME, payload_of [py "A1G"] []);
                  (py "H1", VDict [(SELF_BRANCH_NAME,
                                    payload_of [py "T2C"] [py "AB1"])])])])
    = Ok p /\ pretty p /\ shaped p.
Proof.
  apply (prettify_succeeds_after_parse _
           [[mkTr (py "mt-MRCA") [];
             mkTr [] (map py [""; "A1G"; "H"; ""; ""]%string);
             mkTr [] (map py [""; ""; "T2C"; "H1"; ""; "AB1"]%string)]]).
  - repeat constructor; discriminate.
  - vm_compute. reflexivity.
Defined.

End TreeProps.

(** ** The flattening and the patterns: what they never do *)

Module FlattenProps.
Import Re Forms Trees Shapes PatternFacts StrFacts TokenFacts GrammarClaims.

Lemma appended_refl parent pt : appended parent pt pt.
Proof. exists []. now rewrite app_nil_r. Qed.

Lemma appended_trans parent a b c :
  appended parent a b -> appended parent b c -> appended parent a c.
Proof.
  intros (x & -> & Hx) (y & -> & Hy). exists (x ++ y).
  rewrite app_assoc. split; [reflexivity | now apply Forall_app].
Qed.

Lemma appended_one parent pt name c :
  appended parent pt (pt ++ [parent ++ [path_entry name c]]).
Proof.
  exists [parent ++ [path_entry name c]]. split; [reflexivity|].
  constructor; [eauto | constructor].
Qed.

Lemma flatten_items_appended rec parent :
  (forall branches pt out r,
     rec branches pt = Some (out, r) -> appended parent pt out) ->
  forall its pt out r,
    flatten_items rec parent its pt = Some (out, r) -> appended parent pt out.
Proof.
  intros Hrec. induction its as [|[name branches] its IH]; intros pt out r H;
    cbn [flatten_items] in H.
  - injection H as <- _. apply appended_refl.
  - destruct (getitem branches (py "conditions")) as [c|e].
    2:{ injection H as <- _. apply appended_refl. }
    pose proof (appended_one parent pt name c) as H1.
    fold (path_entry name c) in H.
    destruct (getitem branches (py "descentants")) as [dsc|e].
    2:{ now injection H as <- _. }
    destruct (truthy dsc).
    + destruct (rec branches (pt ++ [parent ++ [path_entry name c]]))
        as [[pt2 [u|e]]|] eqn:Er; try discriminate H.
      * eapply appended_trans; [exact H1|].
        eapply appended_trans; [exact (Hrec _ _ _ _ Er) | exact (IH _ _ _ H)].
      * injection H as <- _.
        eapply appended_trans; [exact H1 | exact (Hrec _ _ _ _ Er)].
    + eapply appended_trans; [exact H1 | exact (IH _ _ _ H)].
Qed.

(** [_prettify_to_array] only appends to the list it is given, also when
    it ends in an exception, and every path it appends is [parent] followed
    by one entry: with the default [parent] no path ever carries an
    ancestor, and what earlier calls left in the shared default list comes
    back in front of the new paths. *)
Theorem prettify_to_array_only_appends_single_entries :
  forall fuel raw_tree pretty_tree parent out r,
    _prettify_to_array fuel raw_tree pretty_tree parent = Some (out, r) ->
    exists added,
      out = pretty_tree ++ added
      /\ Forall (fun path =>
                   exists name c, path = parent ++ [path_entry name c])
                added.
Proof.
  induction fuel as [|fuel IH]; intros t pt parent out r H;
    cbn [_prettify_to_array] in H; [discriminate H|].
  destruct (bind (getitem t (py "descentants")) items) as [its|e].
  - eapply (flatten_items_appended
              (fun br pt1 => _prettify_to_array fuel br pt1 parent));
      [|exact H].
    intros br pt1 out1 r1 H1. exact (IH _ _ _ _ _ H1).
  - injection H as <- _. exists []. now rewrite app_nil_r.
Qed.

Lemma prettify_to_array_appends_witness :
  exists added,
    [[path_entry (py "old") (VList [])];
     [path_entry (py "H") (VList [py "A1G"])];
     [path_entry (py "H1") (VList [py "T2C"])]]
    = [[path_entry (py "old") (VList [])]] ++ added
    /\ Forall (fun path => exists name c, path = [] ++ [path_entry name c])
              added.
Proof.
  apply (prettify_to_array_only_appends_single_entries 5
           (VDict [(py "descentants",
                    VDict [(py "H",
                            VDict [(py "conditions", VList [py "A1G"]);
                                   (py "descentants",
                                    VDict [(py "H1",
                                            VDict [(py "conditions",
                                                    VList [py "T2C"]);
                                                   (py "descentants",
                                                    VDict [])])])])])])
           [[path_entry (py "old") (VList [])]] [] _ (Ok tt)).
  vm_compute. reflexivity.
Defined.

(** The regular pattern and the irregular forms share no string: what
    [is_irregular] accepts holds a [d] or a dot and no white space, and is
    not a regular token. *)
Theorem irregular_and_regular_are_disjoint
  (text : str) (H : is_irregular text = true) :
  fullmatch REGULAR text = false
  /\ existsb d_or_dot text = true
  /\ forallb not_space text = true.
Proof.
  split; [|split].
  - apply not_true_is_false. intros Hr.
    apply regular_token_fullmatch in Hr.
    now apply (irregular_not_regular text H).
  - destruct (irregular_M text H) as (l & a & Hm).
    exact (@MFacts.M_must d_or_dot IRREGULAR l text a Hm IRREGULAR_must).
  - now apply irregular_not_space.
Qed.

Lemma irregular_disjoint_witness :
  fullmatch REGULAR (py "(8281-8289d!)") = false
  /\ existsb d_or_dot (py "(8281-8289d!)") = true
  /\ forallb not_space (py "(8281-8289d!)") = true.
Proof.
  apply irregular_and_regular_are_disjoint. vm_compute. reflexivity.
Defined.

Lemma separated_ends text :
  ws_separated text ->
  text <> [] /\ Shapes.head_ok text = true /\ Shapes.ends_ok text = true.
Proof.
  induction 1 as [t Ht | t w rest Ht Hw _ (Hne & _ & He)].
  - pose proof (valid_token_nonempty Ht) as Hne.
    pose proof (valid_token_not_space Ht) as Hns.
    split; [exact Hne|]. split.
    + destruct t as [|c t]; [congruence|]. cbn [forallb] in Hns.
      now apply andb_true_iff in Hns as [? _].
    + destruct (exists_last Hne) as (t' & c & ->).
      unfold Shapes.ends_ok. rewrite rev_app_distr. cbn [rev app Shapes.head_ok].
      rewrite forallb_app in Hns. apply andb_true_iff in Hns as [_ Hc].
      cbn [forallb] in Hc. now rewrite andb_true_r in Hc.
  - pose proof (valid_token_nonempty Ht) as Hnt.
    pose proof (valid_token_not_space Ht) as Hns.
    split; [now destruct t|]. split.
    + destruct t as [|c t]; [congruence|]. cbn [forallb] in Hns.
      now apply andb_true_iff in Hns as [? _].
    + destruct (exists_last Hne) as (r' & c & ->).
      unfold Shapes.ends_ok in *.
      change (t ++ w :: r' ++ [c]) with (t ++ (w :: r') ++ [c]).
      rewrite app_assoc, rev_app_distr. rewrite rev_app_distr in He.
      exact He.
Qed.

(** [is_branch_conditions] never accepts the empty text, nor a text with
    white space at its start or at its end. *)
Theorem is_branch_conditions_rejects_blank_ends
  (text : str) (H : is_branch_conditions text = true) :
  text <> [] /\ Shapes.head_ok text = true /\ Shapes.ends_ok text = true.
Proof.
  apply separated_ends. now apply is_branch_conditions_spec.
Qed.

Lemma is_branch_conditions_ends_witness :
  py "A123G T456C!" <> []
  /\ Shapes.head_ok (py "A123G T456C!") = true
  /\ Shapes.ends_ok (py "A123G T456C!") = true.
Proof.
  apply is_branch_conditions_rejects_blank_ends. vm_compute. reflexivity.
Defined.

End FlattenProps.

(** ** The normalizer keeps what the raw tree holds *)

Module NormalizeProps.
Import Trees Shapes TreeClaims.

Lemma prettify_items_get items : forall acc res,
  NoDup (map fst items) ->
  prettify_items _prettify items acc = Ok res ->
  (forall name child, In (name, child) items -> name <> SELF_BRANCH_NAME ->
     exists q, _prettify child = Ok q /\ get res name = Some q)
  /\ (forall k, ~ In k (map fst items) -> get res k = get acc k).
Proof.
  induction items as [|[name0 child0] items IH]; intros acc res Hnd H.
  - cbn in H. injection H as <-. split; [intros ? ? []|reflexivity].
  - cbn [map fst] in Hnd. apply NoDup_cons_iff in Hnd as [Hnew Hnd].
    cbn [prettify_items] in H.
    destruct (str_eqb name0 SELF_BRANCH_NAME) eqn:E0; cbn [negb] in H.
    + apply str_eqb_eq in E0. destruct (IH acc res Hnd H) as [Hin Hout].
      split.
      * intros name child [[= <- <-] | Hc] Hn; [congruence | now apply Hin].
      * intros k Hk. apply Hout. intros Hk'. apply Hk. now right.
    + destruct (_prettify child0) as [p0|] eqn:Ep; [|discriminate H].
      cbn [bind] in H.
      destruct (IH (set acc name0 p0) res Hnd H) as [Hin Hout]. split.
      * intros name child [[= <- <-] | Hc] Hn; [|now apply Hin].
        exists p0. split; [exact Ep|].
        now rewrite (Hout name0 Hnew), get_set_same.
      * intros k Hk. rewrite Hout by (intros Hk'; apply Hk; now right).
        apply get_set_other. intros ->. apply Hk. now left.
Qed.

(** Nothing is lost in the normalization of a node with distinct keys:
    every child other than the self-branch is found, normalized, under
    ['descentants'] by its name, and the conditions and example accessions
    of the self-branch are found under ['conditions'] and
    ['example_accessions']. *)
Theorem prettify_keeps_children_and_payload
  (d : dict) (p : value)
  (Hnd : NoDup (map fst d))
  (H : _prettify (VDict d) = Ok p) :
  (forall name child, In (name, child) d -> name <> SELF_BRANCH_NAME ->
     exists q, _prettify child = Ok q
               /\ walk p [py "descentants"; name] = Some q)
  /\ (forall c e, get d SELF_BRANCH_NAME = Some (self_branch_of c e) ->
        walk p [py "conditions"] = Some (VList c)
        /\ walk p [py "example_accessions"] = Some (VList e)).
Proof.
  cbn [_prettify] in H.
  destruct (prettify_items _prettify d []) as [desc|] eqn:Ed;
    [|discriminate H].
  cbn [bind] in H.
  destruct (prettify_items_get d [] desc Hnd Ed) as [Hin _].
  split.
  - intros name child Hc Hn. destruct (Hin name child Hc Hn) as (q & Eq & Eg).
    exists q. split; [exact Eq|].
    match type of H with
    | bind ?pt _ = _ => destruct pt as [base|]
    end; [|discriminate H].
    cbn [bind] in H. injection H as <-.
    destruct desc as [|kv desc]; [discriminate Eg|].
    cbn [length Nat.eqb negb walk]. rewrite get_set_same. cbn [walk].
    now rewrite Eg.
  - intros c e Eg.
    assert (Em : mem SELF_BRANCH_NAME d = true).
    { unfold mem, dict_mem. fold (get d SELF_BRANCH_NAME). now rewrite Eg. }
    rewrite Em, Eg in H. cbn [self_branch_of truthy] in H.
    change (getitem (VDict [(py "conditions", VList c);
                            (py "example_accessions", VList e)])
                    (py "conditions")) with (Ok (VList c)) in H.
    change (getitem (VDict [(py "conditions", VList c);
                            (py "example_accessions", VList e)])
                    (py "example_accessions")) with (Ok (VList e)) in H.
    cbn [bind] in H. injection H as <-.
    destruct (negb (length desc =? 0)%nat); split; reflexivity.
Qed.

Lemma prettify_keeps_witness :
  exists q, _prettify (VDict [(SELF_BRANCH_NAME,
                               self_branch_of [py "T2C"] [py "AB1"])]) = Ok q
            /\ walk (VDict [(py "conditions", VList [py "A1G"]);
                            (py "example_accessions", VList []);
                            (py "descentants",
                             VDict [(py "H1",
                                     VDict [(py "conditions", VList [py "T2C"]);
                                            (py "example_accessions",
                                             VList [py "AB1"])])])])
                    [py "descentants"; py "H1"] = Some q.
Proof.
  apply (prettify_keeps_children_and_payload
           [(SELF_BRANCH_NAME, self_branch_of [py "A1G"] []);
            (py "H1", VDict [(SELF_BRANCH_NAME,
                              self_branch_of [py "T2C"] [py "AB1"])])]).
  - repeat constructor; cbn; intuition discriminate.
  - vm_compute. reflexivity.
  - right. now left.
  - discriminate.
Defined.

End NormalizeProps.
